(** * ngx-schema-form: the reactive property tree of [formproperty.ts]

    A shallow embedding of [FormProperty] and [PropertyGroup]
    (projects/schema-form/src/lib/model/formproperty.ts): the path resolver
    ([getProperty], [searchProperty], [findRoot]), validation
    ([_runValidation], [mergeErrors], [extendErrors]), the upward
    propagation of [updateValueAndValidity], [setVisible], and the
    visibility binder ([_bindVisibility], [__bindVisibility]) together with
    the part of rxjs it uses (BehaviorSubject, map, combineLatest,
    distinctUntilChanged).

    Objects live in a heap indexed by allocation order; a reference is an
    index.  Every method that in the source mutates [this] is a function on
    the machine state. *)

From Stdlib Require Import ZArith Lia Bool String Ascii DecimalString.
From stdpp Require Import base option list relations.

Local Open Scope string_scope.
Local Open Scope list_scope.

(** ** JavaScript values *)

(** The values a form property holds and the literals of a [visibleIf]
    list: JSON scalars and arrays.  Numbers are integers here. *)
#[warnings="-register-all"]
Inductive JsValue :=
| JNull
| JUndefined
| JBool (b : bool)
| JNum (n : Z)
| JStr (s : string)
| JArr (items : list JsValue).

(** [a === b].  Two arrays are strictly equal only when they are the same
    object; a property value is never the array object written in a schema
    literal, so the comparison of arrays is [false]. *)
Definition strict_eq (a b : JsValue) : bool :=
  match a, b with
  | JNull, JNull => true
  | JUndefined, JUndefined => true
  | JBool x, JBool y => Bool.eqb x y
  | JNum x, JNum y => Z.eqb x y
  | JStr x, JStr y => String.eqb x y
  | _, _ => false
  end.

(** [Array.prototype.indexOf]: the first index whose element is strictly
    equal to [x], or [-1]. *)
Fixpoint indexOf_from {A} (eqb : A -> A -> bool) (l : list A) (x : A) (i : Z) : Z :=
  match l with
  | [] => (-1)%Z
  | y :: l' => if eqb y x then i else indexOf_from eqb l' x (i + 1)%Z
  end.

Definition indexOf {A} (eqb : A -> A -> bool) (l : list A) (x : A) : Z :=
  indexOf_from eqb l x 0%Z.

(** [x !== y] on numbers. *)
Definition Zneqb (x y : Z) : bool := negb (Z.eqb x y).

(** ** Failure *)

Inductive Error :=
| OutOfFuel   (* the loop or recursion did not finish within the bound *)
| TypeError   (* a JavaScript TypeError: a property read on null/undefined *)
| BadRef      (* a reference that points outside the heap *)
| Unsupported. (* the source goes on where this model does not follow it *)

Inductive Res (A : Type) :=
| Ok (a : A)
| Fail (e : Error).
Arguments Ok {A} a.
Arguments Fail {A} e.

Definition res_bind {A B} (m : Res A) (k : A -> Res B) : Res B :=
  match m with
  | Ok a => k a
  | Fail e => Fail e
  end.

Notation "'let*' x ':=' m 'in' k" := (res_bind m (fun x => k))
  (at level 10, x name, m at level 100, k at level 200).

(** ** The data model *)

(** An object identity: the index of the object in the heap. *)
Definition id := nat.

(** A value of type [FormProperty] as JavaScript has it.  [RProto key] is
    what a read of [key] finds on [Object.prototype]: a method, or for
    [__proto__] the prototype itself.  It is truthy and not null, it is no
    instance of [PropertyGroup], and it has none of the fields of a
    property: its [_value] and its [valueChanges] are [undefined]. *)
Inductive JsRef :=
| RUndefined
| RNull
| RObj (i : id)
| RProto (key : string).

(** An error descriptor. *)
Record ErrorDesc := { code : string }.

(** [_errors]: [None] is [null], [Some l] is the array [l]. *)
Definition Errors := option (list ErrorDesc).

(** One object of a [visibleIf] clause: dependency path to allowed values,
    in the enumeration order of its keys. *)
Definition DepMap := list (string * list JsValue).

(** [schema.visibleIf].  [VFlat] is any object whose values are arrays of
    allowed values; when one of its keys is oneOf or allOf, the binder takes
    that array for the list of branches (see [composite]). *)
Inductive VisibleIf :=
| VUndefined                          (* no visibleIf *)
| VFlat (m : DepMap)                  (* { path: [values], ... } *)
| VOneOf (branches : list DepMap)     (* { oneOf: [ {...}, ... ] } *)
| VAllOf (branches : list DepMap).    (* { allOf: [ {...}, ... ] } *)

(** The [properties] object of a group, a plain object as [ObjectProperty]
    makes it: the own keys and their children, in the order [for ... in]
    enumerates them. *)
Definition Props := list (string * JsRef).

Record FormProperty := {
  _value : JsValue;
  _errors : Errors;
  _valueChanges : JsValue;        (* current value of the BehaviorSubject *)
  _errorsChanges : Errors;
  _visible : bool;
  _visibilityChanges : bool;
  _parent : option id;            (* None is null *)
  _path : string;
  visibleIf : VisibleIf;
  properties : option Props       (* Some for an instance of PropertyGroup *)
}.

Abbreviation Heap := (list FormProperty).

Definition get (h : Heap) (i : id) : Res FormProperty :=
  match h !! i with
  | Some p => Ok p
  | None => Fail BadRef
  end.

(** [get valid()]. *)
Definition valid (p : FormProperty) : bool :=
  match _errors p with
  | None => true
  | Some _ => false
  end.

(** ** Path resolver *)

(** [path.indexOf(pat)]. *)
Definition str_indexOf (path pat : string) : Z :=
  match String.index 0 pat path with
  | Some n => Z.of_nat n
  | None => (-1)%Z
  end.

(** [path.substr(start, len)] and [path.substr(start)]. *)
Definition substr (path : string) (start len : Z) : string :=
  String.substring (Z.to_nat start) (Z.to_nat len) path.

Definition substr_from (path : string) (start : Z) : string :=
  String.substring (Z.to_nat start) (String.length path - Z.to_nat start) path.

(** The names every plain object inherits from [Object.prototype]. *)
Definition Object_prototype : list string :=
  [ "constructor"; "hasOwnProperty"; "isPrototypeOf"; "propertyIsEnumerable";
    "toLocaleString"; "toString"; "valueOf"; "__proto__";
    "__defineGetter__"; "__defineSetter__"; "__lookupGetter__";
    "__lookupSetter__" ].

Definition inherited (key : string) : bool :=
  existsb (String.eqb key) Object_prototype.

(** The own property [key] of the object, if it has one. *)
Fixpoint own_property {A} (m : list (string * A)) (key : string) : option A :=
  match m with
  | [] => None
  | (k, r) :: m' => if String.eqb k key then Some r else own_property m' key
  end.

(** [properties[propertyId]]: the own property, else the inherited one,
    else [undefined]. *)
Definition obj_get (m : Props) (key : string) : JsRef :=
  match own_property m key with
  | Some r => r
  | None => if inherited key then RProto key else RUndefined
  end.

Definition is_null (r : JsRef) : bool :=
  match r with RNull => true | _ => false end.

(** [property instanceof PropertyGroup]. *)
Definition instanceof_PropertyGroup (h : Heap) (r : JsRef) : bool :=
  match r with
  | RObj c => match h !! c with
              | Some p => match properties p with Some _ => true | None => false end
              | None => false
              end
  | _ => false
  end.

(** [PropertyGroup.getProperty].  The recursive call is on a strictly
    shorter path, so the length of the path bounds the recursion. *)
Fixpoint getProperty_rec (fuel : nat) (h : Heap) (this : id) (path : string)
  : Res JsRef :=
  match fuel with
  | O => Fail OutOfFuel
  | S n =>
    let subPathIdx := str_indexOf path "/" in
    let propertyId :=
      if Zneqb subPathIdx (-1)%Z then substr path 0%Z subPathIdx else path in
    let* g := get h this in
    match properties g with
    | None => Fail TypeError
    | Some props =>
      let property := obj_get props propertyId in
      if negb (is_null property) && Zneqb subPathIdx (-1)%Z
         && instanceof_PropertyGroup h property
      then
        let subPath := substr_from path (subPathIdx + 1)%Z in
        match property with
        | RObj c => getProperty_rec n h c subPath
        | _ => Fail TypeError
        end
      else Ok property
    end
  end.

Definition getProperty (h : Heap) (this : id) (path : string) : Res JsRef :=
  getProperty_rec (S (String.length path)) h this path.

(** [findRoot]: follow [parent] until it is null.  A chain of parents is
    shorter than the heap. *)
Fixpoint findRoot_loop (fuel : nat) (h : Heap) (property : id) : Res id :=
  let* p := get h property in
  match _parent p with
  | None => Ok property
  | Some g =>
    match fuel with
    | O => Fail OutOfFuel
    | S n => findRoot_loop n h g
    end
  end.

Definition findRoot (h : Heap) (this : id) : Res id :=
  findRoot_loop (length h) h this.

(** The loop of [searchProperty]:
    [while (result === null && prop.parent !== null)]. *)
Fixpoint searchProperty_loop (fuel : nat) (h : Heap) (prop : id) (path : string)
  (result : JsRef) : Res JsRef :=
  if is_null result then
    let* p := get h prop in
    match _parent p with
    | None => Ok result
    | Some base =>
      match fuel with
      | O => Fail OutOfFuel
      | S n =>
        let* r := getProperty h base path in
        searchProperty_loop n h base path r
      end
    end
  else Ok result.

(** [FormProperty.searchProperty]. *)
Definition searchProperty (h : Heap) (this : id) (path : string) : Res JsRef :=
  match String.get 0 path with
  | Some "/"%char =>
    let* base := findRoot h this in
    getProperty h base (substr_from path 1%Z)
  | _ => searchProperty_loop (length h) h this path RNull
  end.

(** ** Validation *)

(** What a custom validator returns: a falsy value (null, undefined), a
    single error object, or a list of errors. *)
Inductive CustomResult :=
| CFalsy
| CSingle (e : ErrorDesc)
| CArray (l : list ErrorDesc).

(** [mergeErrors(errors, newErrors)]: [errors.concat(...newErrors)] for an
    array, [errors.push(newErrors)] for a single object. *)
Definition mergeErrors (errors : list ErrorDesc) (newErrors : CustomResult)
  : list ErrorDesc :=
  match newErrors with
  | CFalsy => errors
  | CArray l => errors ++ l
  | CSingle e => errors ++ [e]
  end.

(** ** Events *)

(** What the machine records, in order: the calls of the methods and the
    values sent on the three streams.  [EValueNext] also records the
    [_errors] the property holds at the moment its value is sent. *)
Inductive Event :=
| EUpdateValueAndValidity (i : id) (onlySelf emitEvent : bool)
| EUpdateValue (i : id)
| EValueNext (i : id) (v : JsValue) (errors_then : Errors)
| ERunValidation (i : id)
| EErrorsNext (i : id) (errors : Errors)
| ESetVisible (i : id) (visible : bool)
| EVisibilityNext (i : id) (visible : bool)
| EWarn (dependencyPath : string) (i : id).

(** ** Subscriptions of the visibility binder *)

(** The function given to [map]: membership in the allowed values (flat
    clause and [oneOf]), or [_chk] ([allOf]). *)
Inductive Mode := Membership | Chk.

(** One dependency of a subscription:
    [combineLatest([valueCheck, visibilityCheck], (v1, v2) => v1 && v2)]
    with the latest value of each of its two sources.  Both sources are
    BehaviorSubjects, so both have sent a value once the subscription is
    made. *)
Record Slot := {
  s_dep : id;                    (* property *)
  s_allowed : list JsValue;      (* visibleIf[dependencyPath] *)
  s_check : bool;                (* latest of valueCheck *)
  s_vis : bool                   (* latest of property._visibilityChanges *)
}.

(** One [combineLatest(propertiesBinding, ...).pipe(distinctUntilChanged())
    .subscribe(visible => this.setVisible(visible))]. *)
Record Binding := {
  b_target : id;                 (* this *)
  b_mode : Mode;
  b_slots : list Slot;           (* propertiesBinding *)
  b_last : bool;                 (* the key of distinctUntilChanged *)
  b_closed : bool                (* unsubscribed after an error *)
}.

Record State := {
  heap : Heap;
  subs : list Binding;           (* in the order they were subscribed *)
  log : list (nat * Event);      (* each event with the depth it ran at *)
  depth : nat                    (* subscriber callbacks being run *)
}.

Definition with_heap (h : Heap) (s : State) : State :=
  {| heap := h; subs := subs s; log := log s; depth := depth s |}.
Definition with_subs (b : list Binding) (s : State) : State :=
  {| heap := heap s; subs := b; log := log s; depth := depth s |}.
Definition with_depth (d : nat) (s : State) : State :=
  {| heap := heap s; subs := subs s; log := log s; depth := d |}.
Definition emit (e : Event) (s : State) : State :=
  {| heap := heap s; subs := subs s; log := log s ++ [(depth s, e)];
     depth := depth s |}.

Definition set_value (v : JsValue) (p : FormProperty) : FormProperty :=
  {| _value := v; _errors := _errors p; _valueChanges := _valueChanges p;
     _errorsChanges := _errorsChanges p; _visible := _visible p;
     _visibilityChanges := _visibilityChanges p; _parent := _parent p;
     _path := _path p; visibleIf := visibleIf p; properties := properties p |}.
Definition set_errors (e : Errors) (p : FormProperty) : FormProperty :=
  {| _value := _value p; _errors := e; _valueChanges := _valueChanges p;
     _errorsChanges := _errorsChanges p; _visible := _visible p;
     _visibilityChanges := _visibilityChanges p; _parent := _parent p;
     _path := _path p; visibleIf := visibleIf p; properties := properties p |}.
Definition set_valueChanges (v : JsValue) (p : FormProperty) : FormProperty :=
  {| _value := _value p; _errors := _errors p; _valueChanges := v;
     _errorsChanges := _errorsChanges p; _visible := _visible p;
     _visibilityChanges := _visibilityChanges p; _parent := _parent p;
     _path := _path p; visibleIf := visibleIf p; properties := properties p |}.
Definition set_errorsChanges (e : Errors) (p : FormProperty) : FormProperty :=
  {| _value := _value p; _errors := _errors p; _valueChanges := _valueChanges p;
     _errorsChanges := e; _visible := _visible p;
     _visibilityChanges := _visibilityChanges p; _parent := _parent p;
     _path := _path p; visibleIf := visibleIf p; properties := properties p |}.
Definition set_visible (b : bool) (p : FormProperty) : FormProperty :=
  {| _value := _value p; _errors := _errors p; _valueChanges := _valueChanges p;
     _errorsChanges := _errorsChanges p; _visible := b;
     _visibilityChanges := _visibilityChanges p; _parent := _parent p;
     _path := _path p; visibleIf := visibleIf p; properties := properties p |}.
Definition set_visibilityChanges (b : bool) (p : FormProperty) : FormProperty :=
  {| _value := _value p; _errors := _errors p; _valueChanges := _valueChanges p;
     _errorsChanges := _errorsChanges p; _visible := _visible p;
     _visibilityChanges := b; _parent := _parent p;
     _path := _path p; visibleIf := visibleIf p; properties := properties p |}.

(** Assign to a field of the object [i]. *)
Definition modify (f : FormProperty -> FormProperty) (i : id) (s : State)
  : Res State :=
  let* p := get (heap s) i in
  Ok (with_heap (<[i := f p]> (heap s)) s).

Definition set_check (r : bool) (sl : Slot) : Slot :=
  {| s_dep := s_dep sl; s_allowed := s_allowed sl; s_check := r; s_vis := s_vis sl |}.
Definition set_vis (v : bool) (sl : Slot) : Slot :=
  {| s_dep := s_dep sl; s_allowed := s_allowed sl; s_check := s_check sl; s_vis := v |}.
Definition set_slots (l : list Slot) (b : Binding) : Binding :=
  {| b_target := b_target b; b_mode := b_mode b; b_slots := l;
     b_last := b_last b; b_closed := b_closed b |}.
Definition set_last (v : bool) (b : Binding) : Binding :=
  {| b_target := b_target b; b_mode := b_mode b; b_slots := b_slots b;
     b_last := v; b_closed := b_closed b |}.
Definition close (b : Binding) : Binding :=
  {| b_target := b_target b; b_mode := b_mode b; b_slots := b_slots b;
     b_last := b_last b; b_closed := true |}.

(** ** The functions of the visibility pipeline *)

(** [value.length > 0].  Reading [length] of null or undefined throws; a
    boolean or a number has no [length], and [undefined > 0] is false. *)
Definition length_gt_0 (value : JsValue) : Res bool :=
  match value with
  | JNull | JUndefined => Fail TypeError
  | JStr s => Ok (0 <? Z.of_nat (String.length s))%Z
  | JArr l => Ok (0 <? Z.of_nat (length l))%Z
  | JBool _ | JNum _ => Ok false
  end.

(** The function mapped over [property.valueChanges] for a flat clause and
    for [oneOf]. *)
Definition membership (allowed : list JsValue) (value : JsValue) : Res bool :=
  if Zneqb (indexOf strict_eq allowed (JStr "$ANY$")) (-1)%Z
  then length_gt_0 value
  else Ok (Zneqb (indexOf strict_eq allowed value) (-1)%Z).

(** [prop._value]: a read on null or undefined throws, an inherited
    member has no such field. *)
Definition value_at (h : Heap) (prop : JsRef) : Res JsValue :=
  match prop with
  | RObj d => let* node := get h d in Ok (_value node)
  | RProto _ => Ok JUndefined
  | RNull | RUndefined => Fail TypeError
  end.

(** The inner loop of [_chk]: the dependency paths of one item of [allOf],
    each looked up again and read at its current [_value].  [Ok false] is
    the early [return false]. *)
Fixpoint chk_item (h : Heap) (this : id) (item : DepMap) : Res bool :=
  match item with
  | [] => Ok true
  | (depPath, allowed) :: rest =>
    let* prop := searchProperty h this depPath in
    let* propVal := value_at h prop in
    let* valid := membership allowed propVal in
    if negb valid then Ok false else chk_item h this rest
  end.

(** [_chk]: every item of [this.schema.visibleIf.allOf]. *)
Fixpoint _chk (h : Heap) (this : id) (allOf : list DepMap) : Res bool :=
  match allOf with
  | [] => Ok true
  | item :: rest =>
    let* ok := chk_item h this item in
    if ok then _chk h this rest else Ok false
  end.

(** The function mapped over the value stream of a dependency. *)
Definition project (h : Heap) (b : Binding) (sl : Slot) (value : JsValue)
  : Res bool :=
  match b_mode b with
  | Membership => membership (s_allowed sl) value
  | Chk =>
    let* this := get h (b_target b) in
    match visibleIf this with
    | VAllOf allOf => _chk h (b_target b) allOf
    | _ => Fail TypeError
    end
  end.

(** [(v1, v2) => v1 && v2] of one dependency. *)
Definition and_of (sl : Slot) : bool := s_check sl && s_vis sl.

(** [(...values) => values.indexOf(true) !== -1] over the dependencies. *)
Definition combine (slots : list Slot) : bool :=
  Zneqb (indexOf Bool.eqb (map and_of slots) true) (-1)%Z.

(** ** The machine *)

(** The two methods through which control re-enters the property tree. *)
Inductive Cmd :=
| CUpdateValueAndValidity (i : id) (onlySelf emitEvent : bool)
| CSetVisible (i : id) (visible : bool).

(** [for (x of l) f(x)], stopping at a failure. *)
Fixpoint forEach {A} (f : A -> State -> Res State) (l : list A) (s : State)
  : Res State :=
  match l with
  | [] => Ok s
  | x :: l' => let* s' := f x s in forEach f l' s'
  end.

(** The observers of a stream of the property [d]: the dependencies of
    the subscriptions that watch [d], in the order they subscribed. *)
Definition slots_on (d : id) (k : nat) (b : Binding) : list (nat * nat) :=
  omap (fun '(j, sl) => if Nat.eqb (s_dep sl) d then Some (k, j) else None)
       (imap (fun j sl => (j, sl)) (b_slots b)).

Definition observers (bs : list Binding) (d : id) : list (nat * nat) :=
  concat (imap (slots_on d) bs).

Section Machine.

(** The collaborators of the property tree.  [schemaValidator i] is the
    compiled validator of the property [i]; [None] is a falsy result.
    [validatorRegistry path] is [validatorRegistry.get(path)]; the custom
    validator receives the value, the property and the root. *)
Variable schemaValidator : id -> JsValue -> Errors.
Variable validatorRegistry :
  string -> option (Heap -> JsValue -> id -> id -> CustomResult).

(** The aggregate value a group computes from its children. *)
Variable aggregate : Heap -> id -> JsValue.

(** Modelled from the spec: [_updateValue] is abstract in FormProperty and
    its implementations are outside this file; a leaf's is a no-op since
    its value is already current, a group's recomputes its aggregate
    value from its children. *)
Definition _updateValue (i : id) (s : State) : Res State :=
  let s := emit (EUpdateValue i) s in
  let* p := get (heap s) i in
  match properties p with
  | None => Ok s
  | Some _ => modify (set_value (aggregate (heap s) i)) i s
  end.

(** [setErrors(errors)]: the error stream has no subscriber inside the
    property tree. *)
Definition setErrors (i : id) (errors : Errors) (s : State) : Res State :=
  let* s := modify (set_errors errors) i s in
  let* s := modify (set_errorsChanges errors) i s in
  Ok (emit (EErrorsNext i errors) s).

(** [_runValidation()]. *)
Definition _runValidation (i : id) (s : State) : Res State :=
  let s := emit (ERunValidation i) s in
  let* p := get (heap s) i in
  let errors :=
    match schemaValidator i (_value p) with
    | Some l => l
    | None => []
    end in
  let* errors :=
    match validatorRegistry (_path p) with
    | Some customValidator =>
      let* root := findRoot (heap s) i in
      let customErrors := customValidator (heap s) (_value p) i root in
      Ok (mergeErrors errors customErrors)
    | None => Ok errors
    end in
  let errors :=
    if (Z.of_nat (length errors) =? 0)%Z then None else Some errors in
  let* s := modify (set_errors errors) i s in
  setErrors i errors s.

(** [extendErrors(errors)]. *)
Definition extendErrors (i : id) (errors : CustomResult) (s : State)
  : Res State :=
  let* p := get (heap s) i in
  let errors :=
    mergeErrors (match _errors p with Some l => l | None => [] end) errors in
  setErrors i (Some errors) s.

(** A subscriber's callback: it runs one level deeper than the emission
    that reached it. *)
Definition callback (run : Cmd -> State -> Res State) (c : Cmd) (s : State)
  : Res State :=
  let* s' := run c (with_depth (S (depth s)) s) in
  Ok (with_depth (depth s) s').

(** The outer [combineLatest] of the subscription [k] has a new value
    from one of its dependencies: combine, drop a value equal to the
    previous one, else remember it and call [setVisible]. *)
Definition recompute (run : Cmd -> State -> Res State) (k : nat) (s : State)
  : Res State :=
  match subs s !! k with
  | None => Fail BadRef
  | Some b =>
    let visible := combine (b_slots b) in
    if Bool.eqb visible (b_last b) then Ok s
    else
      callback run (CSetVisible (b_target b) visible)
               (with_subs (<[k := set_last visible b]> (subs s)) s)
  end.

Definition update_slot (f : Slot -> Slot) (k j : nat) (s : State) : State :=
  match subs s !! k with
  | None => s
  | Some b =>
    match b_slots b !! j with
    | None => s
    | Some sl =>
      with_subs (<[k := set_slots (<[j := f sl]> (b_slots b)) b]> (subs s)) s
    end
  end.

(** The value [value] of the dependency reaches the [j]-th dependency of
    the subscription [k].  An exception in the mapped function is sent
    down as an error, and the subscriber, which has no error handler, is
    unsubscribed. *)
Definition deliver_value (run : Cmd -> State -> Res State) (value : JsValue)
  (kj : nat * nat) (s : State) : Res State :=
  let '(k, j) := kj in
  match subs s !! k with
  | None => Fail BadRef
  | Some b =>
    if b_closed b then Ok s
    else
      match b_slots b !! j with
      | None => Fail BadRef
      | Some sl =>
        match project (heap s) b sl value with
        | Ok r => recompute run k (update_slot (set_check r) k j s)
        | Fail TypeError => Ok (with_subs (<[k := close b]> (subs s)) s)
        | Fail e => Fail e
        end
      end
  end.

(** The same for the visibility of the dependency. *)
Definition deliver_visibility (run : Cmd -> State -> Res State) (visible : bool)
  (kj : nat * nat) (s : State) : Res State :=
  let '(k, j) := kj in
  match subs s !! k with
  | None => Fail BadRef
  | Some b =>
    if b_closed b then Ok s
    else recompute run k (update_slot (set_vis visible) k j s)
  end.

(** [this.valueChanges.next(value)]: the subject keeps the value and calls
    the observers it has at that moment, in order. *)
Definition valueChanges_next (run : Cmd -> State -> Res State) (i : id)
  (value : JsValue) (s : State) : Res State :=
  let* p := get (heap s) i in
  let* s := modify (set_valueChanges value) i s in
  let s := emit (EValueNext i value (_errors p)) s in
  forEach (deliver_value run value) (observers (subs s) i) s.

(** [this._visibilityChanges.next(visible)]. *)
Definition visibilityChanges_next (run : Cmd -> State -> Res State) (i : id)
  (visible : bool) (s : State) : Res State :=
  let* s := modify (set_visibilityChanges visible) i s in
  let s := emit (EVisibilityNext i visible) s in
  forEach (deliver_visibility run visible) (observers (subs s) i) s.

(** [updateValueAndValidity(onlySelf, emitEvent)]. *)
Definition updateValueAndValidity (run : Cmd -> State -> Res State) (i : id)
  (onlySelf emitEvent : bool) (s : State) : Res State :=
  let s := emit (EUpdateValueAndValidity i onlySelf emitEvent) s in
  let* s := _updateValue i s in
  let* s :=
    if emitEvent then
      let* p := get (heap s) i in
      valueChanges_next run i (_value p) s
    else Ok s in
  let* s := _runValidation i s in
  let* p := get (heap s) i in
  match _parent p with
  | Some parent =>
    if negb onlySelf
    then run (CUpdateValueAndValidity parent onlySelf emitEvent) s
    else Ok s
  | None => Ok s
  end.

(** [setVisible(visible)]. *)
Definition setVisible (run : Cmd -> State -> Res State) (i : id)
  (visible : bool) (s : State) : Res State :=
  let s := emit (ESetVisible i visible) s in
  let* s := modify (set_visible visible) i s in
  let* s := visibilityChanges_next run i visible s in
  let* s := run (CUpdateValueAndValidity i false true) s in
  let* p := get (heap s) i in
  match _parent p with
  | Some parent => run (CUpdateValueAndValidity parent false true) s
  | None => Ok s
  end.

(** The methods call each other and, through the streams, themselves;
    [fuel] bounds the depth of the calls. *)
Fixpoint exec (fuel : nat) (c : Cmd) (s : State) : Res State :=
  match fuel with
  | O => Fail OutOfFuel
  | S n =>
    match c with
    | CUpdateValueAndValidity i onlySelf emitEvent =>
      updateValueAndValidity (exec n) i onlySelf emitEvent s
    | CSetVisible i visible => setVisible (exec n) i visible s
    end
  end.

(** Modelled from the spec: [setValue] is abstract in FormProperty and its
    implementations are outside this file; a leaf assigns the value
    directly and calls [updateValueAndValidity] itself. *)
Definition setValue (fuel : nat) (i : id) (value : JsValue) (onlySelf : bool)
  (s : State) : Res State :=
  let* s := modify (set_value value) i s in
  exec fuel (CUpdateValueAndValidity i onlySelf true) s.

(** *** The visibility binder *)

(** The loop over the dependency paths of one clause: each path is
    resolved from [this]; a path that resolves to nothing (null or
    undefined) is reported and left out; on an inherited member, which is
    truthy, [property.valueChanges.pipe] throws. *)
Fixpoint propertiesBinding (this : id) (visibleIf : DepMap) (s : State)
  : Res (list (id * list JsValue) * State) :=
  match visibleIf with
  | [] => Ok ([], s)
  | (dependencyPath, allowed) :: rest =>
    let* property := searchProperty (heap s) this dependencyPath in
    match property with
    | RObj d =>
      let* r := propertiesBinding this rest s in
      Ok ((d, allowed) :: fst r, snd r)
    | RProto _ => Fail TypeError
    | RNull | RUndefined =>
      propertiesBinding this rest (emit (EWarn dependencyPath this) s)
    end
  end.

(** Subscribing to the dependencies in order: each BehaviorSubject sends
    its current value at once, the value stream through the mapped
    function. *)
Fixpoint subscribe_slots (h : Heap) (b0 : Binding)
  (deps : list (id * list JsValue)) : Res (list Slot) :=
  match deps with
  | [] => Ok []
  | (d, allowed) :: rest =>
    let* p := get h d in
    let sl := {| s_dep := d; s_allowed := allowed; s_check := false;
                 s_vis := _visibilityChanges p |} in
    let* r := project h b0 sl (_valueChanges p) in
    let* l := subscribe_slots h b0 rest in
    Ok (set_check r sl :: l)
  end.

(** [combineLatest(propertiesBinding, ...).pipe(distinctUntilChanged())
    .subscribe(...)].  Without a dependency the combination completes
    without a value.  Otherwise the first combined value passes
    [distinctUntilChanged] and reaches [setVisible]; the observers are
    registered by then. *)
Definition subscribe (run : Cmd -> State -> Res State) (this : id) (mode : Mode)
  (deps : list (id * list JsValue)) (s : State) : Res State :=
  match deps with
  | [] => Ok s
  | _ =>
    let b0 := {| b_target := this; b_mode := mode; b_slots := [];
                 b_last := false; b_closed := false |} in
    match subscribe_slots (heap s) b0 deps with
    | Ok slots =>
      let visible := combine slots in
      callback run (CSetVisible this visible)
               (with_subs (subs s ++ [set_last visible (set_slots slots b0)]) s)
    | Fail TypeError => Ok s
    | Fail e => Fail e
    end
  end.

(** One clause: an object without keys hides the property, any other
    object is bound.  The loop asks [visibleIf.hasOwnProperty(...)]: when
    the clause has a dependency path of that name, this calls an array and
    throws. *)
Definition bind_clause (run : Cmd -> State -> Res State) (this : id)
  (mode : Mode) (visibleIf : DepMap) (s : State) : Res State :=
  match visibleIf with
  | [] => run (CSetVisible this false) s
  | _ =>
    match own_property visibleIf "hasOwnProperty" with
    | Some _ => Fail TypeError
    | None =>
      let* r := propertiesBinding this visibleIf s in
      subscribe run this mode (fst r) (snd r)
    end
  end.

(** [visibleIf.oneOf || visibleIf.allOf] of a clause that is written as a
    map from paths to allowed values: an array is truthy, so a dependency
    path named oneOf or allOf makes [__bindVisibility] take the array of
    its allowed values for the list of branches. *)
Definition composite (visibleIf : DepMap) : option (list JsValue) :=
  match own_property visibleIf "oneOf" with
  | Some visibleIfOf => Some visibleIfOf
  | None => own_property visibleIf "allOf"
  end.

(** The key of the index [k] of a string or an array. *)
Definition index_key (k : nat) : string :=
  NilEmpty.string_of_uint (Nat.to_uint k).

(** The loop over the keys of such a branch when it is a string or an
    array: its indices.  An index that names no property is reported.  For
    one that names a property the source would go on with a check made of
    [String.prototype.indexOf] or of the element; the model stops there. *)
Fixpoint index_paths (this : id) (keys : list string) (s : State) : Res State :=
  match keys with
  | [] => Ok s
  | dependencyPath :: rest =>
    let* property := searchProperty (heap s) this dependencyPath in
    match property with
    | RObj _ => Fail Unsupported
    | RProto _ => Fail TypeError
    | RNull | RUndefined =>
      index_paths this rest (emit (EWarn dependencyPath this) s)
    end
  end.

(** One such branch.  [Object.keys(null)] throws; the empty array is an
    object without keys; a boolean or a number has no key to loop over;
    in each of the last three cases [combineLatest([])] completes without
    a value, and nothing is subscribed. *)
Definition bind_element (run : Cmd -> State -> Res State) (this : id)
  (visibleIf : JsValue) (s : State) : Res State :=
  match visibleIf with
  | JNull => Fail TypeError
  | JUndefined => Ok s
  | JArr [] => run (CSetVisible this false) s
  | JBool _ | JNum _ => Ok s
  | JStr str =>
    index_paths this (map index_key (seq 0 (String.length str))) s
  | JArr items =>
    index_paths this (map index_key (seq 0 (length items))) s
  end.

(** [__bindVisibility()]: the clauses of [oneOf] or [allOf], one
    subscription each; the result tells whether there were any. *)
Definition __bindVisibility (run : Cmd -> State -> Res State) (this : id)
  (s : State) : Res (bool * State) :=
  let* p := get (heap s) this in
  match visibleIf p with
  | VOneOf visibleIfOf =>
    let* s := forEach (bind_clause run this Membership) visibleIfOf s in
    Ok (true, s)
  | VAllOf visibleIfOf =>
    let* s := forEach (bind_clause run this Chk) visibleIfOf s in
    Ok (true, s)
  | VFlat visibleIf =>
    match composite visibleIf with
    | Some visibleIfOf =>
      let* s := forEach (bind_element run this) visibleIfOf s in
      Ok (true, s)
    | None => Ok (false, s)
    end
  | VUndefined => Ok (false, s)
  end.

(** [FormProperty._bindVisibility()]. *)
Definition _bindVisibility (fuel : nat) (this : id) (s : State) : Res State :=
  let* r := __bindVisibility (exec fuel) this s in
  if fst r then Ok (snd r)
  else
    let s := snd r in
    let* p := get (heap s) this in
    match visibleIf p with
    | VFlat visibleIf => bind_clause (exec fuel) this Membership visibleIf s
    | _ => Ok s
    end.

End Machine.

(** * What is proved about the machine *)

(** ** Reading the state and the log *)

(** The parent of every object of the heap. *)
Definition parents (h : Heap) : list (option id) := _parent <$> h.

(** [ancestors ps i l]: following [parent] from [i] visits the groups [l],
    nearest first, and ends at the root, whose parent is null. *)
Inductive ancestors (ps : list (option id)) : id -> list id -> Prop :=
| ancestors_root i : ps !! i = Some None -> ancestors ps i []
| ancestors_step i g l :
    ps !! i = Some (Some g) -> ancestors ps g l -> ancestors ps i (g :: l).

(** The events of a log that ran at depth [d]: those of a call itself,
    without what subscribers did in their callbacks. *)
Definition own (d : nat) (t : list (nat * Event)) : list Event :=
  omap (fun e => if Nat.eqb (fst e) d then Some (snd e) else None) t.

(** An event without the values it carries. *)
Inductive Step :=
| SUpdateValueAndValidity (i : id)
| SUpdateValue (i : id)
| SValueNext (i : id)
| SRunValidation (i : id)
| SErrorsNext (i : id)
| SSetVisible (i : id)
| SVisibilityNext (i : id)
| SWarn (i : id).

Definition step_of (e : Event) : Step :=
  match e with
  | EUpdateValueAndValidity i _ _ => SUpdateValueAndValidity i
  | EUpdateValue i => SUpdateValue i
  | EValueNext i _ _ => SValueNext i
  | ERunValidation i => SRunValidation i
  | EErrorsNext i _ => SErrorsNext i
  | ESetVisible i _ => SSetVisible i
  | EVisibilityNext i _ => SVisibilityNext i
  | EWarn _ i => SWarn i
  end.

(** The steps of one [updateValueAndValidity] on [i], before it goes on to
    the parent. *)
Definition update_steps (emitEvent : bool) (i : id) : list Step :=
  [SUpdateValueAndValidity i; SUpdateValue i]
  ++ (if emitEvent then [SValueNext i] else [])
  ++ [SRunValidation i; SErrorsNext i].

Definition steps (d : nat) (t : list (nat * Event)) : list Step :=
  map step_of (own d t).

(** The steps a call makes itself, by the command: an update climbs the
    ancestors unless [onlySelf]; [setVisible] updates the property and then
    its parent, each climbing to the root. *)
Definition shape (ps : list (option id)) (c : Cmd) (d : nat)
  (t : list (nat * Event)) : Prop :=
  match c with
  | CUpdateValueAndValidity i true emitEvent =>
    steps d t = update_steps emitEvent i
  | CUpdateValueAndValidity i false emitEvent =>
    exists l, ancestors ps i l /\
      steps d t = flat_map (update_steps emitEvent) (i :: l)
  | CSetVisible i _ =>
    exists l, ancestors ps i l /\
      steps d t = [SSetVisible i; SVisibilityNext i]
                  ++ flat_map (update_steps true) (i :: l)
                  ++ flat_map (update_steps true) l
  end.

(** [evolves s s' t]: from [s] to [s'] the log grew by [t], nothing of it
    above the depth of [s], and depth and parents are those of [s]. *)
Record evolves (s s' : State) (t : list (nat * Event)) : Prop := {
  ev_depth : depth s' = depth s;
  ev_parents : parents (heap s') = parents (heap s);
  ev_log : log s' = log s ++ t;
  ev_deep : Forall (fun e => (depth s <= fst e)%nat) t
}.

(** Nothing was recorded at the depth of [s]. *)
Definition quiet (s s' : State) : Prop :=
  exists t, evolves s s' t /\ own (depth s) t = [].

(** What is assumed of the calls made through [run], and what is shown
    of them. *)
Definition run_ok (run : Cmd -> State -> Res State) : Prop :=
  forall c s s', run c s = Ok s' -> exists t, evolves s s' t.

Definition run_shaped (run : Cmd -> State -> Res State) : Prop :=
  forall c s s', run c s = Ok s' ->
    exists t, evolves s s' t /\ shape (parents (heap s)) c (depth s) t.

(** The key of [distinctUntilChanged] is the latest combination. *)
Definition synced (b : Binding) : Prop := b_last b = combine (b_slots b).

Definition all_synced (s : State) : Prop := Forall synced (subs s).

Definition keeps_synced (run : Cmd -> State -> Res State) : Prop :=
  forall c s s', all_synced s -> run c s = Ok s' -> all_synced s'.

(** The state with [b] as the subscription [k]. *)
Definition stored (k : nat) (b : Binding) (s : State) : State :=
  with_subs (<[k := b]> (subs s)) s.


(** What the log gained from [s] to [s']. *)
Definition since (s s' : State) : list (nat * Event) :=
  drop (length (log s)) (log s').


Definition visible_of (i : id) (s : State) : option bool :=
  _visible <$> heap s !! i.
Definition value_of (i : id) (s : State) : option JsValue :=
  _value <$> heap s !! i.

(** The booleans sent on the visibility stream of [i]. *)
Fixpoint visibility_sent (i : id) (t : list (nat * Event)) : list bool :=
  match t with
  | [] => []
  | (_, EVisibilityNext j v) :: t' =>
    if Nat.eqb j i then v :: visibility_sent i t' else visibility_sent i t'
  | _ :: t' => visibility_sent i t'
  end.


Fixpoint no_repeat (l : list bool) : bool :=
  match l with
  | x :: (y :: _) as l' => negb (Bool.eqb x y) && no_repeat l'
  | _ => true
  end.

(** A value with a length that is not zero. *)
Definition has_nonzero_length (value : JsValue) : Prop :=
  match value with
  | JStr s => String.length s <> 0
  | JArr items => length items <> 0
  | _ => False
  end.

(** ** Example forms *)

Definition new_property (parent : option id) (path : string) (clause : VisibleIf)
  (children : option Props) : FormProperty :=
  {| _value := JNull; _errors := None; _valueChanges := JNull;
     _errorsChanges := None; _visible := true; _visibilityChanges := true;
     _parent := parent; _path := path; visibleIf := clause;
     properties := children |}.

(** The form with the fields a, b and p under the root, p carrying the
    clause. *)
Definition form (clause : VisibleIf) : State :=
  {| heap := [ new_property None "/" VUndefined
                 (Some [("a", RObj 1); ("b", RObj 2); ("p", RObj 3)]);
               new_property (Some 0) "/a" VUndefined None;
               new_property (Some 0) "/b" VUndefined None;
               new_property (Some 0) "/p" clause None ];
     subs := []; log := []; depth := 0 |}.

(** A validator that asks for a non-empty string. *)
Definition required : id -> JsValue -> Errors :=
  fun _ v => match v with
             | JStr "" | JNull | JUndefined => Some [{| code := "required" |}]
             | _ => None
             end.

Definition no_registry
  : string -> option (Heap -> JsValue -> id -> id -> CustomResult) :=
  fun _ => None.

(** A registry with one custom validator, for the path /a. *)
Definition custom_registry
  : string -> option (Heap -> JsValue -> id -> id -> CustomResult) :=
  fun path => if String.eqb path "/a"
              then Some (fun _ _ _ _ => CSingle {| code := "custom" |})
              else None.

(** The aggregate of a group: the values of its children, in order. *)
Definition children_values (h : Heap) (i : id) : JsValue :=
  match h !! i with
  | Some p =>
    match properties p with
    | Some m =>
      JArr (omap (fun kr => match snd kr with
                            | RObj c => _value <$> h !! c
                            | _ => None
                            end) m)
    | None => JNull
    end
  | None => JNull
  end.

Definition the (r : Res State) (otherwise : State) : State :=
  match r with Ok s => s | Fail _ => otherwise end.

Definition flat_clause : VisibleIf := VFlat [("a", [JStr "x"])].
Definition oneOf_clause : VisibleIf :=
  VOneOf [[("a", [JStr "x"])]; [("b", [JStr "y"])]].
Definition allOf_clause : VisibleIf :=
  VAllOf [[("a", [JStr "x"]); ("b", [JStr "y"])]].

(** The example form after [_bindVisibility] of p. *)
Definition bound (clause : VisibleIf) : State :=
  the (_bindVisibility required no_registry children_values 8 3 (form clause))
      (form clause).

(** A leaf's [setValue(value, false)] in the example form. *)
Definition set (i : id) (value : string) (s : State) : State :=
  the (setValue required no_registry children_values 8 i (JStr value) false s) s.

(** group1/group2/leaf with a sibling of group2 under group1. *)
Definition nested : Heap :=
  [ new_property None "/" VUndefined (Some [("group1", RObj 1)]);
    new_property (Some 0) "/group1" VUndefined
      (Some [("group2", RObj 2); ("sibling", RObj 4)]);
    new_property (Some 1) "/group1/group2" VUndefined (Some [("leaf", RObj 3)]);
    new_property (Some 2) "/group1/group2/leaf" VUndefined None;
    new_property (Some 1) "/group1/sibling" VUndefined None ].

Definition nested_state : State :=
  {| heap := nested; subs := []; log := []; depth := 0 |}.

Abbreviation run8 := (exec required no_registry children_values 8).
Abbreviation setValue8 := (setValue required no_registry children_values 8).
Abbreviation bind8 := (_bindVisibility required no_registry children_values 8).

(** The states the examples go through. *)
Definition plain : State := Eval vm_compute in form VUndefined.
Definition bound_flat : State := Eval vm_compute in bound flat_clause.
Definition bound_oneOf : State := Eval vm_compute in bound oneOf_clause.
Definition bound_allOf : State := Eval vm_compute in bound allOf_clause.
Definition flat_x : State := Eval vm_compute in set 1 "x" bound_flat.
Definition oneOf_x : State := Eval vm_compute in set 1 "x" bound_oneOf.
Definition oneOf_xy : State := Eval vm_compute in set 2 "y" oneOf_x.
Definition oneOf_xz : State := Eval vm_compute in set 2 "z" oneOf_xy.
Definition allOf_x : State := Eval vm_compute in set 1 "x" bound_allOf.
Definition allOf_xy : State := Eval vm_compute in set 2 "y" allOf_x.
Definition allOf_wy : State := Eval vm_compute in set 1 "w" allOf_xy.

Definition plain_updated : State :=
  Eval vm_compute in the (run8 (CUpdateValueAndValidity 1 false true) plain) plain.

Definition nested_hidden : State :=
  Eval vm_compute in the (run8 (CSetVisible 3 false) nested_state) nested_state.

Definition slot_a : Slot :=
  {| s_dep := 1; s_allowed := [JStr "x"]; s_check := false; s_vis := true |}.
Definition slot_b : Slot :=
  {| s_dep := 2; s_allowed := [JStr "y"]; s_check := false; s_vis := true |}.
Definition branch_a : Binding :=
  {| b_target := 3; b_mode := Membership; b_slots := [slot_a];
     b_last := false; b_closed := false |}.
Definition both_ab : Binding :=
  {| b_target := 3; b_mode := Chk; b_slots := [slot_a; slot_b];
     b_last := false; b_closed := false |}.

Definition node (s : State) (i : id) : FormProperty :=
  default (new_property None "" VUndefined None) (heap s !! i).
Definition allOf_a : FormProperty := Eval vm_compute in node bound_allOf 1.
Definition allOf_b : FormProperty := Eval vm_compute in node bound_allOf 2.
Definition allOf_p : FormProperty := Eval vm_compute in node bound_allOf 3.


(** * Further definitions *)

(** [s] has no slash. *)
Fixpoint no_slash (s : string) : bool :=
  match s with
  | EmptyString => true
  | String c s' => negb (Ascii.eqb c "/") && no_slash s'
  end.

(** The first reference of the list that is not null, or null. *)
Fixpoint first_non_null (rs : list JsRef) : JsRef :=
  match rs with
  | [] => RNull
  | r :: rs' => if is_null r then first_non_null rs' else r
  end.

(** A path that does not start at the root. *)
Definition relative (path : string) : Prop :=
  String.get 0 path <> Some "/"%char.

(** What never changes in a property: its place in the tree and its
    schema. *)
Definition skeleton (p : FormProperty)
  : option id * string * VisibleIf * option Props :=
  (_parent p, _path p, visibleIf p, properties p).

(** What never changes in a subscription: its target, its mapped function
    and the dependencies it watches. *)
Definition wiring (b : Binding) : id * Mode * list (id * list JsValue) :=
  (b_target b, b_mode b, map (fun sl => (s_dep sl, s_allowed sl)) (b_slots b)).

(** The assignments the machine makes, one at a time.  [setVisible] logs
    its call and assigns [_visible] in one step; [T] holds of the
    properties it is called on. *)
Inductive basic (T : id -> Prop) : State -> State -> Prop :=
| basic_emit e s :
    (forall i v, e <> ESetVisible i v) -> basic T s (emit e s)
| basic_set_visible i v s p :
    T i -> heap s !! i = Some p ->
    basic T s (with_heap (<[i := set_visible v p]> (heap s))
                         (emit (ESetVisible i v) s))
| basic_modify f i s p :
    heap s !! i = Some p ->
    skeleton (f p) = skeleton p -> _visible (f p) = _visible p ->
    basic T s (with_heap (<[i := f p]> (heap s)) s)
| basic_subs k b b' s :
    subs s !! k = Some b -> wiring b' = wiring b ->
    basic T s (with_subs (<[k := b']> (subs s)) s)
| basic_depth d s : basic T s (with_depth d s).

(** The properties a call can reach with [setVisible]: its own, when the
    call is [setVisible], and the targets of the subscriptions. *)
Definition reach (c : Cmd) (s : State) (i : id) : Prop :=
  (exists v, c = CSetVisible i v) \/ exists b, b ∈ subs s /\ b_target b = i.

Definition targets_in (T : id -> Prop) (s : State) : Prop :=
  forall b, b ∈ subs s -> T (b_target b).

Definition runs_basic (run : Cmd -> State -> Res State) : Prop :=
  forall c s s', run c s = Ok s' -> rtc (basic (reach c s)) s s'.

(** The argument of the last [setVisible] call on [i] in the log [t]. *)
Fixpoint last_setVisible (i : id) (t : list (nat * Event)) : option bool :=
  match t with
  | [] => None
  | (_, e) :: t' =>
    match last_setVisible i t' with
    | Some v => Some v
    | None =>
      match e with
      | ESetVisible j v => if Nat.eqb j i then Some v else None
      | _ => None
      end
    end
  end.

(** The check of one dependency path of [allOf] holds in the heap: the
    path resolves, and the [_value] read there passes. *)
Definition path_holds (h : Heap) (this : id) (entry : string * list JsValue)
  : Prop :=
  exists prop propVal, searchProperty h this (fst entry) = Ok prop
    /\ value_at h prop = Ok propVal
    /\ membership (snd entry) propVal = Ok true.

(** The clause with every dependency reported as not found. *)
Definition warn_all (this : id) (visibleIf : DepMap) (s : State) : State :=
  fold_left (fun s entry => emit (EWarn (fst entry) this) s) visibleIf s.

(** The lookup of the path finds nothing: undefined or null. *)
Definition unresolved (h : Heap) (this : id) (path : string) : Prop :=
  searchProperty h this path = Ok RUndefined
  \/ searchProperty h this path = Ok RNull.

(** A clause read as a map from paths to allowed values: none of its
    dependency paths is named oneOf or allOf, which [__bindVisibility]
    takes for the composite form, or hasOwnProperty, which hides the method
    the loop calls. *)
Definition plain_paths (visibleIf : DepMap) : Prop :=
  composite visibleIf = None /\ own_property visibleIf "hasOwnProperty" = None.



(** [null], or an array with at least one error. *)
Definition normal_errors (e : Errors) : Prop :=
  e = None \/ exists x l, e = Some (x :: l).

(** ** The traversal of a group *)

(** [forEachChild(fn)]: the keys of [this.properties] in enumeration
    order; each child is read when its turn comes. *)
Definition forEachChild (fn : JsRef -> string -> State -> Res State)
  (this : id) (s : State) : Res State :=
  let* g := get (heap s) this in
  match properties g with
  | None => Fail TypeError
  | Some props =>
    forEach (fun propertyId s =>
               let* g := get (heap s) this in
               match properties g with
               | None => Fail TypeError
               | Some props => fn (obj_get props propertyId) propertyId s
               end)
            (map fst props) s
  end.

(** [forEachChildRecursive(fn)]; [fuel] bounds the depth of the tree. *)
Fixpoint forEachChildRecursive (fuel : nat) (fn : JsRef -> State -> Res State)
  (this : id) (s : State) : Res State :=
  match fuel with
  | O => Fail OutOfFuel
  | S n =>
    forEachChild
      (fun child _ s =>
         let* s := fn child s in
         if instanceof_PropertyGroup (heap s) child then
           match child with
           | RObj c => forEachChildRecursive n fn c s
           | _ => Fail TypeError
           end
         else Ok s)
      this s
  end.

Section Traversal.
Variable schemaValidator : id -> JsValue -> Errors.
Variable validatorRegistry :
  string -> option (Heap -> JsValue -> id -> id -> CustomResult).
Variable aggregate : Heap -> id -> JsValue.


End Traversal.

(** The children of a group, in the order [forEachChild] meets them. *)
Definition children (h : Heap) (this : id) : option (list JsRef) :=
  match h !! this with
  | Some g =>
    match properties g with
    | Some props => Some (map (fun e => obj_get props (fst e)) props)
    | None => None
    end
  | None => None
  end.





(** The two heaps hold the same tree. *)
Definition same_tree (h h' : Heap) : Prop := skeleton <$> h = skeleton <$> h'.

Definition keeps_tree {A} (f : A -> State -> Res State) : Prop :=
  forall x s s', f x s = Ok s' -> same_tree (heap s) (heap s').

(** No subscription watches the streams of [j]. *)
Definition unwatched (s : State) (j : id) : Prop := observers (subs s) j = [].

(** From [s] to [s'] no subscriber ran: subscriptions, parents,
    visibilities and depth are those of [s], and what the log gained was
    recorded at that depth. *)
Definition calm (s s' : State) : Prop :=
  subs s' = subs s /\ parents (heap s') = parents (heap s)
  /\ _visible <$> heap s' = _visible <$> heap s
  /\ depth s' = depth s
  /\ exists t, log s' = log s ++ t /\ Forall (fun e => fst e = depth s) t.

(** The path with the segments [keys]. *)
Fixpoint join (keys : list string) : string :=
  match keys with
  | [] => ""
  | [k] => k
  | k :: rest => k ++ String "/" (join rest)
  end.

(** Following the keys down from the group [g] leads to [r]: every key but
    the last is the key of a group, and [r] is what the last group holds
    under the last key. *)
Inductive leads_to (h : Heap) : id -> list string -> JsRef -> Prop :=
| leads_last g p props k :
    h !! g = Some p -> properties p = Some props -> no_slash k = true ->
    leads_to h g [k] (obj_get props k)
| leads_step g p props k c keys r :
    h !! g = Some p -> properties p = Some props -> no_slash k = true ->
    obj_get props k = RObj c -> instanceof_PropertyGroup h (RObj c) = true ->
    keys <> [] -> leads_to h c keys r ->
    leads_to h g (k :: keys) r.

(** ** More example states *)

(** A clause whose only dependency path names no property. *)
Definition missing_clause : VisibleIf := VFlat [("c", [JStr "x"])].

(** The field p shown when the field a has any value. *)
Definition any_clause : VisibleIf := VFlat [("a", [JStr "$ANY$"])].

Definition field_a : FormProperty := new_property (Some 0) "/a" VUndefined None.
Definition field_p (clause : VisibleIf) : FormProperty :=
  new_property (Some 0) "/p" clause None.

Definition bound_empty : State := Eval vm_compute in bound (VFlat []).
Definition flat_updated : State :=
  Eval vm_compute in
    the (run8 (CUpdateValueAndValidity 1 false true) bound_flat) bound_flat.
Definition flat_silent : State :=
  Eval vm_compute in
    the (run8 (CUpdateValueAndValidity 1 false false) bound_flat) bound_flat.
Definition plain_validated : State :=
  Eval vm_compute in the (_runValidation required no_registry 1 plain) plain.

(** The flat clause on both fields. *)
Definition both_clause : VisibleIf :=
  VFlat [("a", [JStr "x"]); ("b", [JStr "y"])].
Definition bound_both : State := Eval vm_compute in bound both_clause.
Definition both_x : State := Eval vm_compute in set 1 "x" bound_both.
Definition both_xy : State := Eval vm_compute in set 2 "y" both_x.
Definition both_xz : State := Eval vm_compute in set 2 "z" both_xy.

(** The form with p shown by a = "x", after a is hidden. *)
Definition flat_x_hidden : State :=
  Eval vm_compute in the (run8 (CSetVisible 1 false) flat_x) flat_x.


(** ** The steps of a run by their kind *)





(** ** Lemmas *)

Lemma res_bind_Ok {A B} (m : Res A) (k : A -> Res B) b :
  res_bind m k = Ok b -> exists a, m = Ok a /\ k a = Ok b.
Proof. destruct m; simpl; [eauto | discriminate]. Qed.

Lemma get_Ok h i p : get h i = Ok p -> h !! i = Some p.
Proof. unfold get. destruct (h !! i); congruence. Qed.

Tactic Notation "bind_inv" hyp(H) "as" ident(a) ident(Ha) :=
  apply res_bind_Ok in H as (a & Ha & H).
Tactic Notation "bind_inv" hyp(H) :=
  let a := fresh "a" in let Ha := fresh "Ha" in
  apply res_bind_Ok in H as (a & Ha & H).

(** *** Logs *)

Lemma evolves_refl s : evolves s s [].
Proof. split; auto. by rewrite app_nil_r. Qed.

Lemma evolves_trans s1 s2 s3 t1 t2 :
  evolves s1 s2 t1 -> evolves s2 s3 t2 -> evolves s1 s3 (t1 ++ t2).
Proof.
  intros [d1 p1 l1 f1] [d2 p2 l2 f2]. split.
  - congruence.
  - congruence.
  - rewrite l2, l1. by rewrite app_assoc.
  - apply Forall_app. split; [done|]. by rewrite <- d1.
Qed.

Lemma own_app d t1 t2 : own d (t1 ++ t2) = own d t1 ++ own d t2.
Proof. unfold own. apply omap_app. Qed.

Lemma steps_app d t1 t2 : steps d (t1 ++ t2) = steps d t1 ++ steps d t2.
Proof. unfold steps. by rewrite own_app, map_app. Qed.

Lemma quiet_refl s : quiet s s.
Proof. exists []. split; [apply evolves_refl | done]. Qed.

Lemma quiet_trans s1 s2 s3 : quiet s1 s2 -> quiet s2 s3 -> quiet s1 s3.
Proof.
  intros (t1 & E1 & O1) (t2 & E2 & O2). exists (t1 ++ t2). split.
  - by eapply evolves_trans.
  - rewrite own_app, O1. rewrite <- (ev_depth _ _ _ E1). by rewrite O2.
Qed.

Lemma parents_insert h i p p' :
  h !! i = Some p -> _parent p' = _parent p -> parents (<[i := p']> h) = parents h.
Proof.
  intros Hi Hp. unfold parents. rewrite list_fmap_insert. rewrite Hp.
  apply list_insert_id. by rewrite list_lookup_fmap, Hi.
Qed.

Lemma modify_quiet f i s s' :
  (forall p, _parent (f p) = _parent p) ->
  modify f i s = Ok s' ->
  evolves s s' [] /\ subs s' = subs s.
Proof.
  intros Hf H. unfold modify in H. bind_inv H.
  apply get_Ok in Ha. injection H as <-. split; [split|]; simpl; auto.
  - by apply parents_insert with a.
  - by rewrite app_nil_r.
Qed.

Lemma emit_evolves e s : evolves s (emit e s) [(depth s, e)].
Proof. split; simpl; auto. Qed.

Lemma with_subs_evolves b s : evolves s (with_subs b s) [].
Proof. split; simpl; auto. by rewrite app_nil_r. Qed.


Lemma own_deeper d t : Forall (fun e => (d < fst e)%nat) t -> own d t = [].
Proof.
  induction 1 as [|[d' e] t Hd _ IH]; [done|]. unfold own in *. simpl in *.
  destruct (Nat.eqb_spec d' d); [lia | done].
Qed.

(** *** The steps of a call *)

Section Traces.
Variable schemaValidator : id -> JsValue -> Errors.
Variable validatorRegistry :
  string -> option (Heap -> JsValue -> id -> id -> CustomResult).
Variable aggregate : Heap -> id -> JsValue.

Lemma setErrors_evolves i errors s s' :
  setErrors i errors s = Ok s' ->
  evolves s s' [(depth s, EErrorsNext i errors)] /\ subs s' = subs s.
Proof.
  unfold setErrors. intros H. bind_inv H. bind_inv H. injection H as <-.
  apply modify_quiet in Ha as [E1 S1]; [|done].
  apply modify_quiet in Ha0 as [E2 S2]; [|done].
  split; [|simpl; congruence].
  pose proof (evolves_trans _ _ _ _ _ E1 E2) as E.
  pose proof (evolves_trans _ _ _ _ _ E (emit_evolves (EErrorsNext i errors) a0)) as E'.
  simpl in E'. rewrite (ev_depth _ _ _ E) in E'. exact E'.
Qed.

Lemma runValidation_evolves i s s' :
  _runValidation schemaValidator validatorRegistry i s = Ok s' ->
  exists errors,
    evolves s s' [(depth s, ERunValidation i); (depth s, EErrorsNext i errors)]
    /\ subs s' = subs s.
Proof.
  unfold _runValidation. intros H. bind_inv H. bind_inv H. bind_inv H.
  apply modify_quiet in Ha1 as [E1 S1]; [|done].
  apply setErrors_evolves in H as [E2 S2].
  eexists. split; [|simpl in *; congruence].
  pose proof (emit_evolves (ERunValidation i) s) as E0.
  pose proof (evolves_trans _ _ _ _ _ (evolves_trans _ _ _ _ _ E0 E1) E2) as E.
  simpl in E. rewrite (ev_depth _ _ _ E1) in E. simpl in E. exact E.
Qed.

Lemma updateValue_evolves i s s' :
  _updateValue aggregate i s = Ok s' ->
  evolves s s' [(depth s, EUpdateValue i)] /\ subs s' = subs s.
Proof.
  unfold _updateValue. intros H. bind_inv H.
  pose proof (emit_evolves (EUpdateValue i) s) as E0.
  destruct (properties a).
  - apply modify_quiet in H as [E1 S1]; [|done]. split; [|done].
    pose proof (evolves_trans _ _ _ _ _ E0 E1) as E. exact E.
  - injection H as <-. split; [exact E0 | done].
Qed.


Lemma callback_quiet run c s s' :
  run_ok run -> callback run c s = Ok s' -> quiet s s'.
Proof.
  intros Hrun H. unfold callback in H. bind_inv H. injection H as <-.
  apply Hrun in Ha as (t & [Ed Ep El Ef]). simpl in *.
  exists t. split.
  - split; simpl; auto.
    eapply Forall_impl; [exact Ef|]. simpl. intros; lia.
  - apply own_deeper. eapply Forall_impl; [exact Ef|]. simpl. intros; lia.
Qed.

Lemma with_subs_quiet b s : quiet s (with_subs b s).
Proof. exists []. split; [apply with_subs_evolves | done]. Qed.

Lemma update_slot_quiet f k j s : quiet s (update_slot f k j s).
Proof.
  unfold update_slot. destruct (subs s !! k); [|apply quiet_refl].
  destruct (b_slots b !! j); [apply with_subs_quiet | apply quiet_refl].
Qed.

Lemma recompute_quiet run k s s' :
  run_ok run -> recompute run k s = Ok s' -> quiet s s'.
Proof.
  intros Hrun H. unfold recompute in H.
  destruct (subs s !! k) as [b|]; [|discriminate].
  destruct (Bool.eqb _ _).
  - injection H as <-. apply quiet_refl.
  - eapply quiet_trans; [apply with_subs_quiet|].
    eapply callback_quiet; eauto.
Qed.

Lemma deliver_value_quiet run value kj s s' :
  run_ok run -> deliver_value run value kj s = Ok s' -> quiet s s'.
Proof.
  intros Hrun H. destruct kj as [k j]. unfold deliver_value in H.
  destruct (subs s !! k) as [b|]; [|discriminate].
  destruct (b_closed b); [injection H as <-; apply quiet_refl|].
  destruct (b_slots b !! j) as [sl|]; [|discriminate].
  destruct (project (heap s) b sl value) as [r|[]]; try discriminate.
  - eapply quiet_trans; [apply update_slot_quiet|].
    eapply recompute_quiet; eauto.
  - injection H as <-. apply with_subs_quiet.
Qed.

Lemma deliver_visibility_quiet run visible kj s s' :
  run_ok run -> deliver_visibility run visible kj s = Ok s' -> quiet s s'.
Proof.
  intros Hrun H. destruct kj as [k j]. unfold deliver_visibility in H.
  destruct (subs s !! k) as [b|]; [|discriminate].
  destruct (b_closed b); [injection H as <-; apply quiet_refl|].
  eapply quiet_trans; [apply update_slot_quiet|].
  eapply recompute_quiet; eauto.
Qed.

Lemma forEach_quiet {A} (f : A -> State -> Res State) l :
  (forall x s s', f x s = Ok s' -> quiet s s') ->
  forall s s', forEach f l s = Ok s' -> quiet s s'.
Proof.
  intros Hf. induction l as [|x l IH]; simpl; intros s s' H.
  - injection H as <-. apply quiet_refl.
  - bind_inv H. eapply quiet_trans; eauto.
Qed.

Lemma quiet_evolves s1 s2 s3 t :
  evolves s1 s2 t -> quiet s2 s3 ->
  exists t', evolves s1 s3 (t ++ t') /\ own (depth s1) t' = [].
Proof.
  intros E (t' & E' & O). exists t'. split.
  - by eapply evolves_trans.
  - by rewrite <- (ev_depth _ _ _ E).
Qed.

Lemma valueChanges_next_evolves run i value s s' :
  run_ok run -> valueChanges_next run i value s = Ok s' ->
  exists e t, evolves s s' ((depth s, EValueNext i value e) :: t)
              /\ own (depth s) t = [].
Proof.
  intros Hrun H. unfold valueChanges_next in H. bind_inv H. bind_inv H.
  apply modify_quiet in Ha0 as [E1 S1]; [|done].
  pose proof (evolves_trans _ _ _ _ _ E1 (emit_evolves (EValueNext i value (_errors a)) a0)) as E.
  apply forEach_quiet in H; [|intros; eapply deliver_value_quiet; eauto].
  destruct (quiet_evolves _ _ _ _ E H) as (t' & E' & O).
  exists (_errors a), t'. split; [|done].
  simpl in E'. by rewrite (ev_depth _ _ _ E1) in E'.
Qed.

Lemma visibilityChanges_next_evolves run i visible s s' :
  run_ok run -> visibilityChanges_next run i visible s = Ok s' ->
  exists t, evolves s s' ((depth s, EVisibilityNext i visible) :: t)
            /\ own (depth s) t = [].
Proof.
  intros Hrun H. unfold visibilityChanges_next in H. bind_inv H.
  apply modify_quiet in Ha as [E1 S1]; [|done].
  pose proof (evolves_trans _ _ _ _ _ E1 (emit_evolves (EVisibilityNext i visible) a)) as E.
  apply forEach_quiet in H; [|intros; eapply deliver_visibility_quiet; eauto].
  destruct (quiet_evolves _ _ _ _ E H) as (t' & E' & O).
  exists t'. split; [|done].
  simpl in E'. by rewrite (ev_depth _ _ _ E1) in E'.
Qed.


Lemma steps_here d e t : steps d ((d, e) :: t) = step_of e :: steps d t.
Proof. unfold steps, own. simpl. by rewrite Nat.eqb_refl. Qed.

Lemma steps_quiet d t : own d t = [] -> steps d t = [].
Proof. unfold steps. by intros ->. Qed.

Lemma ancestors_fun ps i l1 :
  ancestors ps i l1 -> forall l2, ancestors ps i l2 -> l1 = l2.
Proof.
  induction 1 as [i Hi | i g l Hi _ IH]; intros l2 H2; inversion H2; subst;
    try congruence.
  assert (g0 = g) by congruence. subst. f_equal. by apply IH.
Qed.

Lemma parents_lookup h i p :
  h !! i = Some p -> parents h !! i = Some (_parent p).
Proof. intros H. unfold parents. by rewrite list_lookup_fmap, H. Qed.

Lemma run_shaped_ok run : run_shaped run -> run_ok run.
Proof. intros H c s s' Hc. apply H in Hc as (t & E & _). eauto. Qed.

Lemma updateValueAndValidity_shape run i onlySelf emitEvent s s' :
  run_shaped run ->
  updateValueAndValidity schemaValidator validatorRegistry aggregate
    run i onlySelf emitEvent s = Ok s' ->
  exists t, evolves s s' t /\
    shape (parents (heap s)) (CUpdateValueAndValidity i onlySelf emitEvent)
          (depth s) t.
Proof.
  intros Hrun H. unfold updateValueAndValidity in H.
  bind_inv H. bind_inv H. bind_inv H. bind_inv H.
  pose proof (emit_evolves (EUpdateValueAndValidity i onlySelf emitEvent) s) as E0.
  apply updateValue_evolves in Ha as [E1 _]. simpl in E1.
  assert (exists t2, evolves a a0 t2 /\
            steps (depth s) t2 = if emitEvent then [SValueNext i] else [])
    as (t2 & E2 & S2).
  { destruct emitEvent.
    - bind_inv Ha0.
      apply valueChanges_next_evolves in Ha0 as (e & t & E & O);
        [|by apply run_shaped_ok].
      rewrite (ev_depth _ _ _ E1) in E, O. simpl in E, O.
      eexists. split; [exact E|]. rewrite steps_here. simpl.
      by rewrite steps_quiet.
    - injection Ha0 as <-. exists []. split; [apply evolves_refl | done]. }
  apply runValidation_evolves in Ha1 as (errs & E3 & _).
  pose proof (evolves_trans _ _ _ _ _ (evolves_trans _ _ _ _ _
                (evolves_trans _ _ _ _ _ E0 E1) E2) E3) as E.
  assert (Hd : depth a0 = depth s).
  { rewrite (ev_depth _ _ _ E2), (ev_depth _ _ _ E1). done. }
  rewrite Hd in E.
  match type of E with evolves _ _ ?t =>
    assert (Hsteps : steps (depth s) t = update_steps emitEvent i)
  end.
  { rewrite !steps_app. simpl. rewrite !steps_here, S2. unfold update_steps.
    simpl. by destruct emitEvent. }
  apply get_Ok in Ha2.
  assert (Hpi : parents (heap s) !! i = Some (_parent a2)).
  { rewrite <- (ev_parents _ _ _ E). by apply parents_lookup. }
  assert (Hd1 : depth a1 = depth s) by apply (ev_depth _ _ _ E).
  destruct (_parent a2) as [parent|] eqn:Hpar.
  - destruct onlySelf; simpl in H.
    + injection H as <-. eexists. split; [exact E|]. simpl. exact Hsteps.
    + apply Hrun in H as (t4 & E4 & l & Hanc & S4).
      rewrite (ev_parents _ _ _ E) in Hanc. rewrite Hd1 in S4.
      eexists. split; [eapply evolves_trans; [exact E | exact E4]|].
      exists (parent :: l). split; [by constructor|].
      rewrite steps_app, Hsteps, S4. done.
  - injection H as <-. eexists. split; [exact E|].
    destruct onlySelf; simpl; [exact Hsteps|].
    exists []. split; [by constructor|]. simpl. by rewrite app_nil_r.
Qed.

Lemma setVisible_shape run i visible s s' :
  run_shaped run ->
  setVisible run i visible s = Ok s' ->
  exists t, evolves s s' t /\
    shape (parents (heap s)) (CSetVisible i visible) (depth s) t.
Proof.
  intros Hrun H. unfold setVisible in H.
  bind_inv H. bind_inv H. bind_inv H. bind_inv H.
  pose proof (emit_evolves (ESetVisible i visible) s) as E0.
  apply modify_quiet in Ha as [E1 _]; [|done]. simpl in E1.
  apply visibilityChanges_next_evolves in Ha0 as (t2 & E2 & O2);
    [|by apply run_shaped_ok].
  rewrite (ev_depth _ _ _ E1) in E2, O2. simpl in E2, O2.
  apply Hrun in Ha1 as (t3 & E3 & l & Hanc & S3).
  pose proof (evolves_trans _ _ _ _ _ (evolves_trans _ _ _ _ _ E0 E1) E2) as E.
  rewrite (ev_parents _ _ _ E) in Hanc. rewrite (ev_depth _ _ _ E) in S3.
  pose proof (evolves_trans _ _ _ _ _ E E3) as E'.
  match type of E' with evolves _ _ ?t =>
    assert (Hsteps : steps (depth s) t
                     = [SSetVisible i; SVisibilityNext i]
                       ++ flat_map (update_steps true) (i :: l))
  end.
  { rewrite !steps_app. simpl. rewrite !steps_here, S3.
    rewrite (steps_quiet _ _ O2). done. }
  apply get_Ok in Ha2.
  assert (Hpi : parents (heap s) !! i = Some (_parent a2)).
  { rewrite <- (ev_parents _ _ _ E'). by apply parents_lookup. }
  destruct (_parent a2) as [parent|] eqn:Hpar.
  - apply Hrun in H as (t4 & E4 & l4 & Hanc4 & S4).
    rewrite (ev_parents _ _ _ E') in Hanc4. rewrite (ev_depth _ _ _ E') in S4.
    eexists. split; [eapply evolves_trans; [exact E' | exact E4]|].
    exists l. split; [done|].
    inversion Hanc; subst; [congruence|].
    assert (g = parent) by congruence. subst.
    assert (l4 = l0) by (eapply ancestors_fun; eauto). subst.
    rewrite steps_app, Hsteps, S4. by rewrite <- !app_assoc.
  - injection H as <-. eexists. split; [exact E'|].
    exists l. split; [done|].
    inversion Hanc; subst; [|congruence].
    unfold shape. rewrite Hsteps. simpl. by rewrite ?app_nil_r.
Qed.

(** Every call that returns made, at its own depth, exactly the steps of
    its command, and kept depth and parents. *)
Lemma exec_shaped fuel :
  run_shaped (exec schemaValidator validatorRegistry aggregate fuel).
Proof.
  induction fuel as [|n IH]; intros c s s' H; [discriminate|].
  destruct c; simpl in H.
  - by apply updateValueAndValidity_shape in H.
  - by apply setVisible_shape in H.
Qed.

End Traces.

(** *** The pipeline of a subscription *)

Lemma indexOf_from_found {A} (eqb : A -> A -> bool) l x i :
  (0 <= i)%Z ->
  Zneqb (indexOf_from eqb l x i) (-1) = existsb (fun y => eqb y x) l.
Proof.
  revert i. induction l as [|y l IH]; simpl; intros i Hi; [done|].
  destruct (eqb y x); simpl.
  - unfold Zneqb. destruct (Z.eqb_spec i (-1)); [lia | done].
  - apply IH. lia.
Qed.

Lemma indexOf_found {A} (eqb : A -> A -> bool) l x :
  Zneqb (indexOf eqb l x) (-1) = existsb (fun y => eqb y x) l.
Proof. by apply indexOf_from_found. Qed.

Lemma combine_existsb slots : combine slots = existsb and_of slots.
Proof.
  unfold combine. rewrite indexOf_found.
  induction slots as [|sl l IH]; simpl; [done|]. rewrite IH.
  by destruct (and_of sl).
Qed.

Lemma combine_one sl : combine [sl] = s_check sl && s_vis sl.
Proof. rewrite combine_existsb. simpl. by rewrite orb_false_r. Qed.

Lemma combine_two sl1 sl2 :
  combine [sl1; sl2] = (s_check sl1 && s_vis sl1) || (s_check sl2 && s_vis sl2).
Proof. rewrite combine_existsb. simpl. by rewrite orb_false_r. Qed.

Lemma membership_literal lit value :
  membership [JStr lit] value
  = if String.eqb lit "$ANY$" then length_gt_0 value
    else Ok (strict_eq (JStr lit) value).
Proof.
  unfold membership, indexOf. cbn [indexOf_from].
  change (strict_eq (JStr lit) (JStr "$ANY$")) with (String.eqb lit "$ANY$").
  destruct (String.eqb lit "$ANY$"); [done|].
  by destruct (strict_eq (JStr lit) value).
Qed.

Section Pipeline.
Variable run : Cmd -> State -> Res State.

Lemma update_slot_stored f k j s b sl :
  subs s !! k = Some b -> b_slots b !! j = Some sl ->
  update_slot f k j s = stored k (set_slots (<[j := f sl]> (b_slots b)) b) s.
Proof. intros Hk Hj. unfold update_slot. by rewrite Hk, Hj. Qed.

Lemma recompute_stored k b s :
  k < length (subs s) ->
  recompute run k (stored k b s)
  = let visible := combine (b_slots b) in
    if Bool.eqb visible (b_last b) then Ok (stored k b s)
    else callback run (CSetVisible (b_target b) visible)
                  (stored k (set_last visible b) s).
Proof.
  intros Hk. unfold recompute, stored. simpl.
  rewrite list_lookup_insert_eq by done. simpl.
  destruct (Bool.eqb _ _); [done|].
  by rewrite list_insert_insert_eq.
Qed.

Lemma deliver_value_stored value k j s b sl r :
  subs s !! k = Some b -> b_closed b = false -> b_slots b !! j = Some sl ->
  project (heap s) b sl value = Ok r ->
  deliver_value run value (k, j) s
  = let b' := set_slots (<[j := set_check r sl]> (b_slots b)) b in
    let visible := combine (b_slots b') in
    if Bool.eqb visible (b_last b) then Ok (stored k b' s)
    else callback run (CSetVisible (b_target b) visible)
                  (stored k (set_last visible b') s).
Proof.
  intros Hk Hc Hj Hp. unfold deliver_value. rewrite Hk, Hc, Hj, Hp.
  rewrite (update_slot_stored _ _ _ _ _ _ Hk Hj).
  rewrite recompute_stored; [done|]. by eapply lookup_lt_Some.
Qed.

Lemma deliver_visibility_stored visible k j s b sl :
  subs s !! k = Some b -> b_closed b = false -> b_slots b !! j = Some sl ->
  deliver_visibility run visible (k, j) s
  = let b' := set_slots (<[j := set_vis visible sl]> (b_slots b)) b in
    let v := combine (b_slots b') in
    if Bool.eqb v (b_last b) then Ok (stored k b' s)
    else callback run (CSetVisible (b_target b) v)
                  (stored k (set_last v b') s).
Proof.
  intros Hk Hc Hj. unfold deliver_visibility. rewrite Hk, Hc.
  rewrite (update_slot_stored _ _ _ _ _ _ Hk Hj).
  rewrite recompute_stored; [done|]. by eapply lookup_lt_Some.
Qed.
End Pipeline.

(** *** The key of distinctUntilChanged *)

Section Synced.
Variable schemaValidator : id -> JsValue -> Errors.
Variable validatorRegistry :
  string -> option (Heap -> JsValue -> id -> id -> CustomResult).
Variable aggregate : Heap -> id -> JsValue.

Lemma stored_synced k b s :
  all_synced s -> synced b -> all_synced (stored k b s).
Proof.
  intros Hs Hb. unfold all_synced, stored. simpl.
  apply Forall_insert; done.
Qed.

Lemma callback_synced run c s s' :
  keeps_synced run -> all_synced s -> callback run c s = Ok s' -> all_synced s'.
Proof.
  intros Hrun Hs H. unfold callback in H. bind_inv H. injection H as <-.
  apply (Hrun c _ _) in Ha; done.
Qed.

Lemma deliver_value_synced run value kj s s' :
  keeps_synced run -> all_synced s ->
  deliver_value run value kj s = Ok s' -> all_synced s'.
Proof.
  intros Hrun Hs H. destruct kj as [k j].
  destruct (subs s !! k) as [b|] eqn:Hk;
    [|unfold deliver_value in H; rewrite Hk in H; discriminate].
  destruct (b_closed b) eqn:Hc;
    [unfold deliver_value in H; rewrite Hk, Hc in H; by injection H as <-|].
  destruct (b_slots b !! j) as [sl|] eqn:Hj;
    [|unfold deliver_value in H; rewrite Hk, Hc, Hj in H; discriminate].
  assert (Hb : synced b) by (eapply Forall_lookup_1; eauto).
  destruct (project (heap s) b sl value) as [r|e] eqn:Hp.
  - rewrite (deliver_value_stored run _ _ _ _ _ _ _ Hk Hc Hj Hp) in H.
    cbv zeta in H. destruct (Bool.eqb _ _) eqn:He.
    + injection H as <-. apply stored_synced; [done|].
      apply eqb_prop in He. unfold synced. simpl in *. congruence.
    + eapply callback_synced; [exact Hrun| |exact H].
      apply stored_synced; [done|]. unfold synced. done.
  - unfold deliver_value in H. rewrite Hk, Hc, Hj, Hp in H.
    destruct e; try discriminate. injection H as <-.
    apply (stored_synced k (close b) s); done.
Qed.

Lemma deliver_visibility_synced run visible kj s s' :
  keeps_synced run -> all_synced s ->
  deliver_visibility run visible kj s = Ok s' -> all_synced s'.
Proof.
  intros Hrun Hs H. destruct kj as [k j].
  destruct (subs s !! k) as [b|] eqn:Hk;
    [|unfold deliver_visibility in H; rewrite Hk in H; discriminate].
  destruct (b_closed b) eqn:Hc;
    [unfold deliver_visibility in H; rewrite Hk, Hc in H; by injection H as <-|].
  assert (Hb : synced b) by (eapply Forall_lookup_1; eauto).
  destruct (b_slots b !! j) as [sl|] eqn:Hj.
  - rewrite (deliver_visibility_stored run _ _ _ _ _ _ Hk Hc Hj) in H.
    cbv zeta in H. destruct (Bool.eqb _ _) eqn:He.
    + injection H as <-. apply stored_synced; [done|].
      apply eqb_prop in He. unfold synced. simpl in *. congruence.
    + eapply callback_synced; [exact Hrun| |exact H].
      apply stored_synced; [done|]. unfold synced. done.
  - unfold deliver_visibility, update_slot in H. rewrite Hk, Hc, Hj in H.
    unfold recompute in H. rewrite Hk in H.
    destruct (Bool.eqb _ _) eqn:He; [by injection H as <-|].
    eapply callback_synced; [exact Hrun| |exact H].
    apply (stored_synced k (set_last _ b) s); [done|]. unfold synced. done.
Qed.

Lemma forEach_synced {A} (f : A -> State -> Res State) l :
  (forall x s s', all_synced s -> f x s = Ok s' -> all_synced s') ->
  forall s s', all_synced s -> forEach f l s = Ok s' -> all_synced s'.
Proof.
  intros Hf. induction l as [|x l IH]; simpl; intros s s' Hs H.
  - by injection H as <-.
  - bind_inv H. eauto.
Qed.

Lemma updateValueAndValidity_synced run i onlySelf emitEvent s s' :
  keeps_synced run -> all_synced s ->
  updateValueAndValidity schemaValidator validatorRegistry aggregate
    run i onlySelf emitEvent s = Ok s' -> all_synced s'.
Proof.
  intros Hrun Hs H. unfold updateValueAndValidity in H.
  bind_inv H. bind_inv H. bind_inv H. bind_inv H.
  apply updateValue_evolves in Ha as [_ S1]. simpl in S1.
  assert (all_synced a) as Hs1 by (unfold all_synced; by rewrite S1).
  assert (all_synced a0) as Hs2.
  { destruct emitEvent; [|by injection Ha0 as <-].
    bind_inv Ha0 as p Hp. unfold valueChanges_next in Ha0.
    bind_inv Ha0 as p' Hp'. bind_inv Ha0 as sm Hm.
    apply modify_quiet in Hm as [_ S]; [|done].
    eapply forEach_synced; [| |exact Ha0].
    - intros. eapply deliver_value_synced; eauto.
    - unfold all_synced. simpl. by rewrite S. }
  apply runValidation_evolves in Ha1 as (errs & _ & S3).
  assert (all_synced a1) as Hs3 by (unfold all_synced; by rewrite S3).
  destruct (_parent a2); [|by injection H as <-].
  destruct (negb onlySelf); [|by injection H as <-].
  eapply Hrun; eauto.
Qed.

Lemma setVisible_synced run i visible s s' :
  keeps_synced run -> all_synced s ->
  setVisible run i visible s = Ok s' -> all_synced s'.
Proof.
  intros Hrun Hs H. unfold setVisible in H.
  bind_inv H. bind_inv H. bind_inv H. bind_inv H.
  apply modify_quiet in Ha as [_ S1]; [|done]. simpl in S1.
  assert (all_synced a0) as Hs2.
  { unfold visibilityChanges_next in Ha0. bind_inv Ha0 as sm Hm.
    apply modify_quiet in Hm as [_ S]; [|done].
    eapply forEach_synced; [| |exact Ha0].
    - intros. eapply deliver_visibility_synced; eauto.
    - unfold all_synced. simpl. by rewrite S, S1. }
  assert (all_synced a1) as Hs3 by (eapply Hrun; eauto).
  destruct (_parent a2); [|by injection H as <-].
  eapply Hrun; eauto.
Qed.

(** In every state the machine reaches, the key of each
    [distinctUntilChanged] is the latest combination of its subscription. *)
Lemma exec_synced fuel :
  keeps_synced (exec schemaValidator validatorRegistry aggregate fuel).
Proof.
  induction fuel as [|n IH]; intros c s s' Hs H; [discriminate|].
  destruct c; simpl in H.
  - eapply updateValueAndValidity_synced; eauto.
  - eapply setVisible_synced; eauto.
Qed.
End Synced.

(** *** Calls and ancestors *)




Lemma ancestors_member ps g l :
  ancestors ps g l -> forall x, x ∈ g :: l ->
  exists l', ancestors ps x l' /\ length l' <= length l.
Proof.
  induction 1 as [i Hi | i g l Hi Hl IH]; intros x Hx.
  - apply list_elem_of_singleton in Hx as ->. exists []. split; [by constructor | done].
  - apply elem_of_cons in Hx as [-> | Hx].
    + exists (g :: l). split; [by constructor | done].
    + destruct (IH x Hx) as (l' & Hl' & Hlen). exists l'. split; [done|]. simpl. lia.
Qed.

Lemma ancestors_NoDup ps i l : ancestors ps i l -> NoDup (i :: l).
Proof.
  induction 1 as [i Hi | i g l Hi Hl IH].
  - apply NoDup_singleton.
  - apply NoDup_cons. split; [|done]. intros Hin.
    destruct (ancestors_member _ _ _ Hl i Hin) as (l' & Hl' & Hlen).
    assert (l' = g :: l).
    { eapply ancestors_fun; [exact Hl'|]. by constructor. }
    subst. simpl in Hlen. lia.
Qed.

Lemma evolves_since s s' t : evolves s s' t -> since s s' = t.
Proof. intros E. unfold since. rewrite (ev_log _ _ _ E). by rewrite drop_app_length. Qed.



(** *** Path resolver and validation *)

Lemma searchProperty_loop_not_null fuel h prop path r :
  is_null r = false -> searchProperty_loop fuel h prop path r = Ok r.
Proof. intros H. destruct fuel; simpl; by rewrite H. Qed.

(** A relative search ends at the nearest group whenever that group's
    lookup returns anything but null. *)
Lemma searchProperty_nearest_group h this p g path r :
  String.get 0 path <> Some "/"%char ->
  h !! this = Some p -> _parent p = Some g ->
  getProperty h g path = Ok r -> is_null r = false ->
  searchProperty h this path = Ok r.
Proof.
  intros Hrel Hthis Hparent Hget Hr. unfold searchProperty.
  assert (Hloop : searchProperty_loop (length h) h this path RNull = Ok r).
  { destruct (length h) as [|n] eqn:Hlen.
    - apply lookup_lt_Some in Hthis. lia.
    - simpl. unfold get. rewrite Hthis. simpl. rewrite Hparent, Hget. simpl.
      by apply searchProperty_loop_not_null. }
  destruct (String.get 0 path) as [c|]; [|done].
  destruct c as [[] [] [] [] [] [] [] []]; try done.
Qed.

Lemma modify_Ok f i s p :
  heap s !! i = Some p -> modify f i s = Ok (with_heap (<[i := f p]> (heap s)) s).
Proof. intros H. unfold modify, get. by rewrite H. Qed.

Lemma setErrors_Ok i errors s p :
  heap s !! i = Some p ->
  exists s', setErrors i errors s = Ok s'
    /\ heap s' !! i = Some (set_errorsChanges errors (set_errors errors p))
    /\ log s' = log s ++ [(depth s, EErrorsNext i errors)].
Proof.
  intros H. unfold setErrors. rewrite (modify_Ok _ _ _ _ H). simpl.
  assert (Hlt : i < length (heap s)) by (by eapply lookup_lt_Some).
  erewrite modify_Ok; [|simpl; by apply list_lookup_insert_eq]. simpl.
  eexists. split; [done|]. split.
  - simpl. apply list_lookup_insert_eq. by rewrite length_insert.
  - done.
Qed.

(** With no errors so far, a falsy argument or an empty list leaves the
    empty array in [_errors]. *)
Lemma extendErrors_without_errors i s p arg :
  heap s !! i = Some p -> _errors p = None ->
  arg = CFalsy \/ arg = CArray [] ->
  exists s' p', extendErrors i arg s = Ok s' /\ heap s' !! i = Some p'
                /\ _errors p' = Some [] /\ valid p' = false.
Proof.
  intros H He Harg. unfold extendErrors, get. rewrite H. simpl. rewrite He.
  destruct (setErrors_Ok i (Some (mergeErrors [] arg)) s p H) as (s' & Hs & Hh & _).
  exists s', (set_errorsChanges (Some (mergeErrors [] arg))
                (set_errors (Some (mergeErrors [] arg)) p)).
  split; [done|]. split; [done|]. destruct Harg as [-> | ->]; done.
Qed.

(** [_chk] on the branch {a: ["x"], b: ["y"]} is the conjunction of the two
    comparisons on the current values. *)
Lemma chk_two h this A B pa pb :
  searchProperty h this "a" = Ok (RObj A) ->
  searchProperty h this "b" = Ok (RObj B) ->
  h !! A = Some pa -> h !! B = Some pb ->
  _chk h this [[("a", [JStr "x"]); ("b", [JStr "y"])]]
  = Ok (strict_eq (JStr "x") (_value pa) && strict_eq (JStr "y") (_value pb)).
Proof.
  intros Ha Hb HA HB. unfold _chk, chk_item. rewrite Ha. cbn [res_bind value_at].
  unfold get at 1. rewrite HA. cbn [res_bind]. rewrite membership_literal.
  change (String.eqb "x" "$ANY$") with false. cbn [res_bind].
  destruct (strict_eq (JStr "x") (_value pa)); cbn [negb andb res_bind]; [|done].
  rewrite Hb. cbn [res_bind value_at]. unfold get. rewrite HB. cbn [res_bind].
  rewrite membership_literal.
  change (String.eqb "y" "$ANY$") with false. cbn [res_bind].
  destruct (strict_eq (JStr "y") (_value pb)); done.
Qed.


(** * Further properties of the machine *)

Lemma index_slash_cons c s :
  String.index 0 "/" (String c s)
  = if Ascii.eqb c "/" then Some 0
    else match String.index 0 "/" s with Some n => Some (S n) | None => None end.
Proof.
  cbn [String.index String.prefix]. destruct (ascii_dec "/" c) as [<- | Hne].
  - by destruct s.
  - destruct (Ascii.eqb_spec c "/"); [congruence | done].
Qed.

Lemma str_indexOf_no_slash s : no_slash s = true -> str_indexOf s "/" = (-1)%Z.
Proof.
  unfold str_indexOf. induction s as [|c s IH]; [intros _; reflexivity|].
  intros H. apply andb_true_iff in H as [Hc Hs].
  rewrite index_slash_cons. revert Hc. destruct (Ascii.eqb c "/"); [by intros [=]|].
  intros _. specialize (IH Hs). destruct (String.index 0 "/" s); [lia | done].
Qed.

Lemma str_indexOf_head head rest :
  no_slash head = true ->
  str_indexOf (head ++ String "/" rest)%string "/" = Z.of_nat (String.length head).
Proof.
  unfold str_indexOf. induction head as [|c s IH]; intros H.
  - simpl String.append. by rewrite index_slash_cons.
  - apply andb_true_iff in H as [Hc Hs]. simpl String.append.
    rewrite index_slash_cons. revert Hc. destruct (Ascii.eqb c "/"); [by intros [=]|].
    intros _. specialize (IH Hs).
    destruct (String.index 0 "/" (s ++ String "/" rest)%string); [|lia].
    simpl String.length. lia.
Qed.

Lemma substring_all s : String.substring 0 (String.length s) s = s.
Proof. induction s as [|c s IH]; [done|]. simpl. by rewrite IH. Qed.

Lemma substring_head head rest :
  String.substring 0 (String.length head) (head ++ rest)%string = head.
Proof.
  induction head as [|c s IH]; simpl.
  - by destruct rest.
  - by rewrite IH.
Qed.

Lemma substring_tail head rest n :
  String.substring (String.length head) n (head ++ rest)%string
  = String.substring 0 n rest.
Proof. induction head as [|c s IH]; [done|]. simpl. exact IH. Qed.

Lemma length_append s1 s2 :
  String.length (s1 ++ s2)%string = String.length s1 + String.length s2.
Proof. induction s1 as [|c s IH]; [done|]. simpl. by rewrite IH. Qed.

Lemma substr_head head rest :
  substr (head ++ String "/" rest)%string 0 (Z.of_nat (String.length head)) = head.
Proof. unfold substr. rewrite Nat2Z.id. simpl Z.to_nat. apply substring_head. Qed.

Lemma substr_from_tail head rest :
  substr_from (head ++ String "/" rest)%string (Z.of_nat (String.length head) + 1)
  = rest.
Proof.
  unfold substr_from.
  replace (Z.to_nat (Z.of_nat (String.length head) + 1)) with (S (String.length head)) by lia.
  rewrite length_append. simpl String.length.
  replace (String.length head + S (String.length rest) - S (String.length head))
    with (String.length rest) by lia.
  change (S (String.length head)) with (String.length (String "/" head)) at 1.
  replace (head ++ String "/" rest)%string with ((head ++ "/") ++ rest)%string.
  2:{ clear. induction head as [|c s IH]; [done|]. simpl. by rewrite IH. }
  replace (String.length (String "/" head)) with (String.length (head ++ "/")%string).
  2:{ rewrite length_append. simpl. lia. }
  rewrite substring_tail. apply substring_all.
Qed.

Lemma length_substring n m s : String.length (String.substring n m s) <= m.
Proof.
  revert n m. induction s as [|c s IH]; intros n m.
  - destruct n, m; simpl; lia.
  - destruct n; simpl.
    + destruct m; simpl; [lia|]. specialize (IH 0 m). lia.
    + apply IH.
Qed.

Lemma str_indexOf_range path :
  (str_indexOf path "/" = -1 \/
   0 <= str_indexOf path "/" < Z.of_nat (String.length path))%Z.
Proof.
  unfold str_indexOf. induction path as [|c s IH]; [by left|].
  rewrite index_slash_cons. destruct (Ascii.eqb c "/").
  - right. simpl String.length. lia.
  - destruct (String.index 0 "/" s); [|by left]. right. simpl String.length. lia.
Qed.

Lemma length_subPath path :
  str_indexOf path "/" <> (-1)%Z ->
  String.length (substr_from path (str_indexOf path "/" + 1)) < String.length path.
Proof.
  intros H. destruct (str_indexOf_range path) as [|Hr]; [done|].
  unfold substr_from. pose proof (length_substring (Z.to_nat (str_indexOf path "/" + 1))
    (String.length path - Z.to_nat (str_indexOf path "/" + 1)) path). lia.
Qed.

Lemma Zneqb_true x y : Zneqb x y = true <-> x <> y.
Proof. unfold Zneqb. destruct (Z.eqb_spec x y); simpl; split; intros; congruence. Qed.

(** With more fuel than the path is long, the fuel does not matter. *)
Lemma getProperty_rec_fuel h n : forall m this path,
  String.length path < n -> String.length path < m ->
  getProperty_rec n h this path = getProperty_rec m h this path.
Proof.
  induction n as [|n IH]; intros m this path Hn Hm; [lia|].
  destruct m as [|m]; [lia|]. simpl.
  destruct (get h this) as [g|]; [|done]. simpl.
  destruct (properties g) as [props|]; [|done].
  destruct (negb _ && Zneqb (str_indexOf path "/") (-1) && _) eqn:Hc; [|done].
  apply andb_true_iff in Hc as [Hc _]. apply andb_true_iff in Hc as [_ Hc].
  apply Zneqb_true in Hc. pose proof (length_subPath path Hc).
  destruct (obj_get props _); try done. apply IH; lia.
Qed.

(** X1.  [getProperty] returns for every path: each recursive call is on a
    strictly shorter path, so the fuel of the model, the length of the
    path, is never used up. *)
Theorem getProperty_terminates h this path :
  getProperty h this path <> Fail OutOfFuel.
Proof.
  unfold getProperty.
  assert (H : forall n this path, String.length path < n ->
            getProperty_rec n h this path <> Fail OutOfFuel).
  { clear. induction n as [|n IH]; intros this path Hn; [lia|]. simpl.
    destruct (get h this) as [g|[]] eqn:Hg; simpl; try done.
    - destruct (properties g) as [props|]; [|done].
      destruct (negb _ && Zneqb (str_indexOf path "/") (-1) && _) eqn:Hc; [|done].
      apply andb_true_iff in Hc as [Hc _]. apply andb_true_iff in Hc as [_ Hc].
      apply Zneqb_true in Hc. pose proof (length_subPath path Hc).
      destruct (obj_get props _); try done. apply IH; lia.
    - unfold get in Hg. destruct (h !! this); discriminate. }
  apply H. lia.
Qed.

(** X2.  [getProperty] of head/rest on a group whose child head is a group
    is [getProperty] of rest on that child. *)
Theorem getProperty_descends h this g props head rest c :
  h !! this = Some g -> properties g = Some props ->
  no_slash head = true ->
  obj_get props head = RObj c ->
  instanceof_PropertyGroup h (RObj c) = true ->
  getProperty h this (head ++ String "/" rest)%string = getProperty h c rest.
Proof.
  intros Hthis Hprops Hhead Hget Hgroup. unfold getProperty at 1.
  cbn [getProperty_rec]. rewrite (str_indexOf_head _ _ Hhead).
  unfold get. rewrite Hthis. cbn [res_bind]. rewrite Hprops.
  assert (Hne : Zneqb (Z.of_nat (String.length head)) (-1) = true)
    by (apply Zneqb_true; lia).
  rewrite Hne, substr_head, Hget, Hgroup. cbn [is_null negb andb].
  rewrite substr_from_tail. unfold getProperty.
  apply getProperty_rec_fuel; rewrite ?length_append; simpl; lia.
Qed.

(** X3.  When what [properties] gives for the first segment of the path
    is not a group (a leaf, null, a member inherited from
    [Object.prototype], or undefined for a name that is neither a child nor
    inherited), [getProperty] returns it and ignores the rest of the
    path. *)
Theorem getProperty_stops_at_non_group h this g props head rest :
  h !! this = Some g -> properties g = Some props ->
  no_slash head = true ->
  instanceof_PropertyGroup h (obj_get props head) = false ->
  getProperty h this head = Ok (obj_get props head)
  /\ getProperty h this (head ++ String "/" rest)%string
     = Ok (obj_get props head).
Proof.
  intros Hthis Hprops Hhead Hng. unfold getProperty. cbn [getProperty_rec].
  unfold get. rewrite Hthis. cbn [res_bind]. rewrite Hprops. split.
  - rewrite (str_indexOf_no_slash _ Hhead).
    change (Zneqb (-1) (-1)) with false. cbn iota.
    by rewrite Hng, andb_false_r.
  - rewrite (str_indexOf_head _ _ Hhead).
    assert (Hne : Zneqb (Z.of_nat (String.length head)) (-1) = true)
      by (apply Zneqb_true; lia).
    by rewrite Hne, substr_head, Hng, andb_false_r.
Qed.

Lemma ancestors_in_heap h i l :
  ancestors (parents h) i l -> Forall (fun x => x < length h) (i :: l).
Proof.
  induction 1 as [i Hi | i g l Hi Hl IH].
  - apply Forall_singleton. apply lookup_lt_Some in Hi.
    unfold parents in Hi. by rewrite length_fmap in Hi.
  - apply Forall_cons. split; [|done]. apply lookup_lt_Some in Hi.
    unfold parents in Hi. by rewrite length_fmap in Hi.
Qed.

(** A chain of ancestors is shorter than the heap. *)
Lemma ancestors_length h i l :
  ancestors (parents h) i l -> length l < length h.
Proof.
  intros H. pose proof (ancestors_NoDup _ _ _ H) as Hnd.
  pose proof (ancestors_in_heap _ _ _ H) as Hin.
  assert (Hsub : (i :: l) ⊆+ seq 0 (length h)).
  { apply NoDup_submseteq; [done|]. intros x Hx.
    apply elem_of_seq. rewrite Forall_forall in Hin. specialize (Hin x Hx). lia. }
  apply submseteq_length in Hsub. rewrite length_seq in Hsub. simpl in Hsub. lia.
Qed.

Lemma parents_lookup_inv h i o :
  parents h !! i = Some o -> exists p, h !! i = Some p /\ _parent p = o.
Proof.
  unfold parents. rewrite list_lookup_fmap. destruct (h !! i) as [p|]; [|done].
  intros [= <-]. eauto.
Qed.

Lemma get_Some (h : Heap) (i : id) p : h !! i = Some p -> get h i = Ok p.
Proof. intros H. unfold get. by rewrite H. Qed.

Lemma findRoot_loop_chain h i l :
  ancestors (parents h) i l -> forall fuel, length l <= fuel ->
  findRoot_loop fuel h i = Ok (List.last l i).
Proof.
  induction 1 as [i Hi | i g l Hi Hl IH]; intros fuel Hfuel.
  - apply parents_lookup_inv in Hi as (p & Hp & Hpar).
    destruct fuel; cbn [findRoot_loop]; rewrite (get_Some _ _ _ Hp);
      cbn [res_bind]; by rewrite Hpar.
  - apply parents_lookup_inv in Hi as (p & Hp & Hpar).
    destruct fuel as [|fuel]; [simpl in Hfuel; lia|].
    cbn [findRoot_loop]. rewrite (get_Some _ _ _ Hp). cbn [res_bind].
    rewrite Hpar.
    rewrite IH by (simpl in Hfuel; lia). f_equal.
    clear. revert g. induction l as [|x l IH]; intros g; [done|].
    simpl. destruct l; [done|]. apply IH.
Qed.

Lemma last_is_root h i l :
  ancestors (parents h) i l ->
  exists p, h !! List.last l i = Some p /\ _parent p = None.
Proof.
  induction 1 as [i Hi | i g l Hi Hl IH].
  - apply parents_lookup_inv in Hi as (p & Hp & Hpar). eauto.
  - destruct IH as (p & Hp & Hpar). exists p. split; [|done].
    replace (List.last (g :: l) i) with (List.last l g); [done|].
    clear. revert g. induction l as [|x l IH]; intros g; [done|].
    simpl. destruct l; [done|]. apply IH.
Qed.

(** X4.  [findRoot] returns the last property of the chain of parents, the
    one whose parent is null. *)
Theorem findRoot_reaches_root h this l :
  ancestors (parents h) this l ->
  exists root p,
    findRoot h this = Ok root /\ List.last l this = root
    /\ h !! root = Some p /\ _parent p = None.
Proof.
  intros H. destruct (last_is_root _ _ _ H) as (p & Hp & Hpar).
  exists (List.last l this), p. split; [|done].
  unfold findRoot. apply findRoot_loop_chain; [done|].
  pose proof (ancestors_length _ _ _ H). lia.
Qed.

Lemma substr_from_slash rest : substr_from (String "/" rest) 1 = rest.
Proof.
  unfold substr_from. simpl. rewrite Nat.sub_0_r. apply substring_all.
Qed.

Lemma searchProperty_loop_chain h path i l :
  ancestors (parents h) i l -> forall rs fuel,
  Forall2 (fun g r => getProperty h g path = Ok r) l rs ->
  length l <= fuel ->
  searchProperty_loop fuel h i path RNull = Ok (first_non_null rs).
Proof.
  induction 1 as [i Hi | i g l Hi Hl IH]; intros rs fuel Hrs Hfuel.
  - apply Forall2_nil_inv_l in Hrs as ->.
    apply parents_lookup_inv in Hi as (p & Hp & Hpar).
    destruct fuel; cbn [searchProperty_loop is_null];
      rewrite (get_Some _ _ _ Hp); cbn [res_bind]; by rewrite Hpar.
  - apply Forall2_cons_inv_l in Hrs as (r & rs' & Hr & Hrs' & ->).
    apply parents_lookup_inv in Hi as (p & Hp & Hpar).
    destruct fuel as [|fuel]; [simpl in Hfuel; lia|].
    cbn [searchProperty_loop is_null]. rewrite (get_Some _ _ _ Hp).
    cbn [res_bind]. rewrite Hpar, Hr. cbn [res_bind first_non_null].
    destruct (is_null r) eqn:Hnull.
    + destruct r; try discriminate. apply IH; [done | simpl in Hfuel; lia].
    + destruct fuel; cbn [searchProperty_loop]; by rewrite Hnull.
Qed.

(** X6.  A relative path is looked up in each ancestor in turn, nearest
    first, and the first result that is not null is returned; [undefined]
    is such a result.  When every ancestor answers null the result is
    null. *)
Theorem searchProperty_relative h this path l rs :
  relative path ->
  ancestors (parents h) this l ->
  Forall2 (fun g r => getProperty h g path = Ok r) l rs ->
  searchProperty h this path = Ok (first_non_null rs).
Proof.
  intros Hrel Hanc Hrs. unfold searchProperty.
  assert (Hloop : searchProperty_loop (length h) h this path RNull
                  = Ok (first_non_null rs)).
  { eapply searchProperty_loop_chain; eauto.
    pose proof (ancestors_length _ _ _ Hanc). lia. }
  unfold relative in Hrel.
  destruct (String.get 0 path) as [c|]; [|done].
  destruct c as [[] [] [] [] [] [] [] []]; try done.
Qed.

Lemma basic_mono (T T' : id -> Prop) s s' :
  (forall i, T i -> T' i) -> basic T s s' -> basic T' s s'.
Proof.
  intros HT.
  destruct 1;
    [ apply basic_emit | apply basic_set_visible | eapply basic_modify
    | eapply basic_subs | apply basic_depth ]; eauto.
Qed.

Lemma rtc_basic_mono (T T' : id -> Prop) s s' :
  (forall i, T i -> T' i) -> rtc (basic T) s s' -> rtc (basic T') s s'.
Proof.
  intros HT. induction 1 as [|s s1 s' H1 _ IH]; [done|].
  eapply rtc_l; [by eapply basic_mono|done].
Qed.

Lemma basic_structure T s s' :
  basic T s s' ->
  skeleton <$> heap s' = skeleton <$> heap s
  /\ wiring <$> subs s' = wiring <$> subs s.
Proof.
  destruct 1 as [e s He | i v s p Ht Hp | f i s p Hp Hsk Hv | k b b' s Hk Hw | d s];
    cbn [heap subs with_heap with_subs with_depth emit]; try done;
    unfold id in *.
  - split; [|done]. rewrite list_fmap_insert.
    apply list_insert_id. by rewrite list_lookup_fmap, Hp.
  - split; [|done]. rewrite list_fmap_insert, Hsk.
    apply list_insert_id. by rewrite list_lookup_fmap, Hp.
  - split; [done|]. rewrite list_fmap_insert, Hw.
    apply list_insert_id. by rewrite list_lookup_fmap, Hk.
Qed.

Lemma rtc_basic_structure T s s' :
  rtc (basic T) s s' ->
  skeleton <$> heap s' = skeleton <$> heap s
  /\ wiring <$> subs s' = wiring <$> subs s.
Proof.
  induction 1 as [s | s s1 s' H1 _ [IH1 IH2]]; [done|].
  apply basic_structure in H1 as [H1 H2]. split; congruence.
Qed.

Lemma targets_in_wiring T s s' :
  wiring <$> subs s' = wiring <$> subs s -> targets_in T s -> targets_in T s'.
Proof.
  intros Hw HT b Hb.
  assert (wiring b ∈ wiring <$> subs s) as Hin.
  { rewrite <- Hw. by apply list_elem_of_fmap_2. }
  apply list_elem_of_fmap in Hin as (b0 & Heq & Hb0).
  apply HT in Hb0. unfold wiring in Heq. by injection Heq as -> _ _.
Qed.

Lemma targets_in_rtc T T' s s' :
  rtc (basic T') s s' -> targets_in T s -> targets_in T s'.
Proof.
  intros H. apply rtc_basic_structure in H as [_ Hw]. by apply targets_in_wiring.
Qed.

Lemma modify_basic T f i s s' :
  (forall p, skeleton (f p) = skeleton p) ->
  (forall p, _visible (f p) = _visible p) ->
  modify f i s = Ok s' -> rtc (basic T) s s'.
Proof.
  intros Hsk Hv H. unfold modify in H. bind_inv H as p Hp. apply get_Ok in Hp.
  injection H as <-. apply rtc_once. by apply basic_modify.
Qed.

Lemma emit_basic T e s :
  (forall i v, e <> ESetVisible i v) -> rtc (basic T) s (emit e s).
Proof. intros H. apply rtc_once. by constructor. Qed.

Section Steps.
Variable schemaValidator : id -> JsValue -> Errors.
Variable validatorRegistry :
  string -> option (Heap -> JsValue -> id -> id -> CustomResult).
Variable aggregate : Heap -> id -> JsValue.
Variable T : id -> Prop.

Lemma setErrors_basic i errors s s' :
  setErrors i errors s = Ok s' -> rtc (basic T) s s'.
Proof.
  unfold setErrors. intros H. bind_inv H as s1 H1. bind_inv H as s2 H2.
  injection H as <-.
  apply (modify_basic T) in H1; [|done..]. apply (modify_basic T) in H2; [|done..].
  etrans; [exact H1|]. etrans; [exact H2|]. by apply emit_basic.
Qed.

Lemma runValidation_basic i s s' :
  _runValidation schemaValidator validatorRegistry i s = Ok s' ->
  rtc (basic T) s s'.
Proof.
  unfold _runValidation. intros H. bind_inv H as p Hp. bind_inv H as e He.
  bind_inv H as s1 H1. apply (modify_basic T) in H1; [|done..].
  apply setErrors_basic in H.
  etrans; [by apply (emit_basic T (ERunValidation i))|]. etrans; eauto.
Qed.

Lemma updateValue_basic i s s' :
  _updateValue aggregate i s = Ok s' -> rtc (basic T) s s'.
Proof.
  unfold _updateValue. intros H. bind_inv H as p Hp.
  etrans; [by apply (emit_basic T (EUpdateValue i))|].
  destruct (properties p).
  - by apply (modify_basic T) in H.
  - by injection H as <-.
Qed.

Lemma callback_basic run i v s s' :
  runs_basic run -> targets_in T s -> T i ->
  callback run (CSetVisible i v) s = Ok s' -> rtc (basic T) s s'.
Proof.
  intros Hrun HT Hi H. unfold callback in H. bind_inv H as s1 H1.
  injection H as <-. apply Hrun in H1.
  etrans; [apply rtc_once, (basic_depth T (S (depth s)))|].
  etrans; [|apply rtc_once, basic_depth].
  eapply rtc_basic_mono; [|exact H1].
  intros j [[v' [= ->]] | (b & Hb & <-)]; [done | by apply HT].
Qed.

Lemma recompute_basic run k s s' :
  runs_basic run -> targets_in T s ->
  recompute run k s = Ok s' -> rtc (basic T) s s'.
Proof.
  intros Hrun HT H. unfold recompute in H.
  destruct (subs s !! k) as [b|] eqn:Hk; [|discriminate].
  destruct (Bool.eqb _ _); [by injection H as <-|].
  assert (rtc (basic T) s
            (with_subs (<[k:=set_last (combine (b_slots b)) b]> (subs s)) s)) as H1.
  { apply rtc_once. by eapply basic_subs. }
  etrans; [exact H1|]. eapply callback_basic; [done| | |exact H].
  - by eapply targets_in_rtc.
  - apply HT. by eapply list_elem_of_lookup_2.
Qed.

Lemma update_slot_basic f k j s :
  (forall sl, s_dep (f sl) = s_dep sl /\ s_allowed (f sl) = s_allowed sl) ->
  rtc (basic T) s (update_slot f k j s).
Proof.
  intros Hf. unfold update_slot.
  destruct (subs s !! k) as [b|] eqn:Hk; [|done].
  destruct (b_slots b !! j) as [sl|] eqn:Hj; [|done].
  apply rtc_once. eapply basic_subs; [done|]. unfold wiring. simpl.
  f_equal. rewrite <- (list_insert_id _ _ _ Hj) at 2.
  rewrite !list_fmap_insert. destruct (Hf sl) as [-> ->]. done.
Qed.

Lemma deliver_value_basic run value kj s s' :
  runs_basic run -> targets_in T s ->
  deliver_value run value kj s = Ok s' -> rtc (basic T) s s'.
Proof.
  intros Hrun HT H. destruct kj as [k j]. unfold deliver_value in H.
  destruct (subs s !! k) as [b|] eqn:Hk; [|discriminate].
  destruct (b_closed b); [by injection H as <-|].
  destruct (b_slots b !! j) as [sl|]; [|discriminate].
  destruct (project (heap s) b sl value) as [r|[]]; try discriminate.
  - pose proof (update_slot_basic (set_check r) k j s) as H1.
    etrans; [apply H1; done|].
    eapply recompute_basic; [done| |exact H].
    eapply targets_in_rtc; [apply H1; done | done].
  - injection H as <-. apply rtc_once. by eapply basic_subs.
Qed.

Lemma deliver_visibility_basic run visible kj s s' :
  runs_basic run -> targets_in T s ->
  deliver_visibility run visible kj s = Ok s' -> rtc (basic T) s s'.
Proof.
  intros Hrun HT H. destruct kj as [k j]. unfold deliver_visibility in H.
  destruct (subs s !! k) as [b|] eqn:Hk; [|discriminate].
  destruct (b_closed b); [by injection H as <-|].
  pose proof (update_slot_basic (set_vis visible) k j s) as H1.
  etrans; [apply H1; done|].
  eapply recompute_basic; [done| |exact H].
  eapply targets_in_rtc; [apply H1; done | done].
Qed.

Lemma forEach_basic {A} (f : A -> State -> Res State) l :
  (forall x s s', targets_in T s -> f x s = Ok s' -> rtc (basic T) s s') ->
  forall s s', targets_in T s -> forEach f l s = Ok s' -> rtc (basic T) s s'.
Proof.
  intros Hf. induction l as [|x l IH]; simpl; intros s s' HT H.
  - by injection H as <-.
  - bind_inv H as s1 H1. pose proof (Hf _ _ _ HT H1) as R1.
    etrans; [exact R1|]. apply IH; [|done]. by eapply targets_in_rtc.
Qed.

Lemma valueChanges_next_basic run i value s s' :
  runs_basic run -> targets_in T s ->
  valueChanges_next run i value s = Ok s' -> rtc (basic T) s s'.
Proof.
  intros Hrun HT H. unfold valueChanges_next in H. bind_inv H as p Hp.
  bind_inv H as s1 H1. apply (modify_basic T) in H1; [|done..].
  assert (rtc (basic T) s (emit (EValueNext i value (_errors p)) s1)) as R.
  { etrans; [exact H1|]. by apply emit_basic. }
  etrans; [exact R|].
  eapply forEach_basic; [|by eapply targets_in_rtc|exact H].
  intros; eapply deliver_value_basic; eauto.
Qed.

Lemma visibilityChanges_next_basic run i visible s s' :
  runs_basic run -> targets_in T s ->
  visibilityChanges_next run i visible s = Ok s' -> rtc (basic T) s s'.
Proof.
  intros Hrun HT H. unfold visibilityChanges_next in H.
  bind_inv H as s1 H1. apply (modify_basic T) in H1; [|done..].
  assert (rtc (basic T) s (emit (EVisibilityNext i visible) s1)) as R.
  { etrans; [exact H1|]. by apply emit_basic. }
  etrans; [exact R|].
  eapply forEach_basic; [|by eapply targets_in_rtc|exact H].
  intros; eapply deliver_visibility_basic; eauto.
Qed.

Lemma run_update_basic run i onlySelf emitEvent s s' :
  runs_basic run -> targets_in T s ->
  run (CUpdateValueAndValidity i onlySelf emitEvent) s = Ok s' ->
  rtc (basic T) s s'.
Proof.
  intros Hrun HT H. apply Hrun in H. eapply rtc_basic_mono; [|exact H].
  intros j [[v [=]] | (b & Hb & <-)]. by apply HT.
Qed.

Lemma updateValueAndValidity_basic run i onlySelf emitEvent s s' :
  runs_basic run -> targets_in T s ->
  updateValueAndValidity schemaValidator validatorRegistry aggregate
    run i onlySelf emitEvent s = Ok s' -> rtc (basic T) s s'.
Proof.
  intros Hrun HT H. unfold updateValueAndValidity in H.
  bind_inv H as s1 H1. bind_inv H as s2 H2. bind_inv H as s3 H3.
  bind_inv H as p Hp.
  apply updateValue_basic in H1. apply runValidation_basic in H3.
  assert (rtc (basic T) s s1) as R1.
  { etrans; [|exact H1].
    by apply (emit_basic T (EUpdateValueAndValidity i onlySelf emitEvent)). }
  assert (rtc (basic T) s1 s2) as R2.
  { destruct emitEvent; [|by injection H2 as <-].
    bind_inv H2 as q Hq. eapply valueChanges_next_basic; [done| |exact H2].
    by eapply targets_in_rtc. }
  assert (rtc (basic T) s s3) as R3.
  { etrans; [exact R1|]. etrans; eauto. }
  etrans; [exact R3|].
  destruct (_parent p); [|by injection H as <-].
  destruct (negb onlySelf); [|by injection H as <-].
  eapply run_update_basic; [done| |exact H]. by eapply targets_in_rtc.
Qed.

Lemma setVisible_basic run i visible s s' :
  runs_basic run -> targets_in T s -> T i ->
  setVisible run i visible s = Ok s' -> rtc (basic T) s s'.
Proof.
  intros Hrun HT Hi H. unfold setVisible in H.
  bind_inv H as s1 H1. bind_inv H as s2 H2. bind_inv H as s3 H3.
  bind_inv H as p Hp.
  unfold modify in H1. bind_inv H1 as q Hq. apply get_Ok in Hq.
  injection H1 as <-. simpl in Hq.
  assert (rtc (basic T) s
            (with_heap (<[i:=set_visible visible q]> (heap s))
                       (emit (ESetVisible i visible) s))) as R1.
  { apply rtc_once. by apply basic_set_visible. }
  apply visibilityChanges_next_basic in H2; [|done|by eapply targets_in_rtc].
  assert (rtc (basic T) s s2) as R2 by (etrans; eauto).
  apply run_update_basic in H3; [|done|by eapply targets_in_rtc].
  assert (rtc (basic T) s s3) as R3 by (etrans; eauto).
  etrans; [exact R3|].
  destruct (_parent p); [|by injection H as <-].
  eapply run_update_basic; [done| |exact H]. by eapply targets_in_rtc.
Qed.

End Steps.

(** Every call that returns is a sequence of these assignments, and it
    calls [setVisible] on nothing but what it can reach. *)
Lemma exec_basic schemaValidator validatorRegistry aggregate fuel :
  runs_basic (exec schemaValidator validatorRegistry aggregate fuel).
Proof.
  induction fuel as [|n IH]; intros c s s' H; [discriminate|].
  assert (HT : targets_in (reach c s) s).
  { intros b Hb. right. eauto. }
  destruct c; simpl in H.
  - by eapply updateValueAndValidity_basic in H.
  - eapply setVisible_basic in H; [done..|]. left. eauto.
Qed.

Lemma last_setVisible_app i t1 t2 :
  last_setVisible i (t1 ++ t2)
  = match last_setVisible i t2 with
    | Some v => Some v
    | None => last_setVisible i t1
    end.
Proof.
  induction t1 as [|[d e] t1 IH]; simpl.
  - by destruct (last_setVisible i t2).
  - rewrite IH. by destruct (last_setVisible i t2).
Qed.

Lemma basic_visible T s s' :
  basic T s s' ->
  exists t, log s' = log s ++ t /\
    forall i, visible_of i s'
              = match last_setVisible i t with
                | Some v => Some v
                | None => visible_of i s
                end.
Proof.
  unfold visible_of.
  destruct 1 as [e s He | i v s p Ht Hp | f i s p Hp Hsk Hv | k b b' s Hk Hw | d s];
    unfold id in *.
  - exists [(depth s, e)]. split; [done|]. intros i. simpl.
    destruct e; try done. by destruct (He i0 visible).
  - exists [(depth s, ESetVisible i v)]. split; [done|]. intros j.
    cbn [heap with_heap emit last_setVisible]. destruct (Nat.eqb_spec i j) as [->|Hne].
    + rewrite list_lookup_insert_eq; [done|]. by eapply lookup_lt_Some.
    + by rewrite list_lookup_insert_ne.
  - exists []. split; [by rewrite app_nil_r|]. intros j.
    cbn [heap with_heap last_setVisible]. destruct (decide (i = j)) as [->|Hne].
    + rewrite list_lookup_insert_eq; [|by eapply lookup_lt_Some].
      rewrite Hp. simpl. by rewrite Hv.
    + by rewrite list_lookup_insert_ne.
  - exists []. split; [by rewrite app_nil_r | done].
  - exists []. split; [by rewrite app_nil_r | done].
Qed.

Lemma rtc_basic_visible T s s' :
  rtc (basic T) s s' ->
  exists t, log s' = log s ++ t /\
    forall i, visible_of i s'
              = match last_setVisible i t with
                | Some v => Some v
                | None => visible_of i s
                end.
Proof.
  induction 1 as [s | s s1 s' H1 _ (t2 & Hl2 & Hv2)].
  - exists []. split; [by rewrite app_nil_r | done].
  - apply basic_visible in H1 as (t1 & Hl1 & Hv1).
    exists (t1 ++ t2). split; [by rewrite Hl2, Hl1, app_assoc|].
    intros i. rewrite Hv2, last_setVisible_app, Hv1.
    by destruct (last_setVisible i t2).
Qed.

Lemma basic_untargeted T s s' j :
  basic T s s' -> ~ T j -> visible_of j s' = visible_of j s.
Proof.
  unfold visible_of.
  destruct 1 as [e s He | i v s p Ht Hp | f i s p Hp Hsk Hv | k b b' s Hk Hw | d s];
    unfold id in *; intros Hj; cbn [heap with_heap with_subs with_depth emit];
    try done.
  - rewrite list_lookup_insert_ne; [done|]. by intros ->.
  - destruct (decide (i = j)) as [->|Hne].
    + rewrite list_lookup_insert_eq; [|by eapply lookup_lt_Some].
      rewrite Hp. simpl. by rewrite Hv.
    + by rewrite list_lookup_insert_ne.
Qed.

Lemma rtc_basic_untargeted T s s' j :
  rtc (basic T) s s' -> ~ T j -> visible_of j s' = visible_of j s.
Proof.
  induction 1 as [|s s1 s' H1 _ IH]; [done|]. intros Hj.
  rewrite IH by done. by eapply basic_untargeted.
Qed.

Section Invariants.
Variable schemaValidator : id -> JsValue -> Errors.
Variable validatorRegistry :
  string -> option (Heap -> JsValue -> id -> id -> CustomResult).
Variable aggregate : Heap -> id -> JsValue.

(** X7.  No call changes the tree or the wiring of the subscriptions:
    after [updateValueAndValidity] or [setVisible], with all the subscriber
    callbacks they set off, every property has the parent, path, schema
    clause and children it had, and every subscription the target and the
    dependencies it had. *)
Theorem exec_keeps_structure fuel c s s' :
  exec schemaValidator validatorRegistry aggregate fuel c s = Ok s' ->
  length (heap s') = length (heap s)
  /\ skeleton <$> heap s' = skeleton <$> heap s
  /\ wiring <$> subs s' = wiring <$> subs s.
Proof.
  intros H. apply exec_basic, rtc_basic_structure in H as [H1 H2].
  split; [|done]. apply (f_equal length) in H1. by rewrite !length_fmap in H1.
Qed.

(** X8.  [_visible] is assigned by [setVisible] only: after a call, the
    visibility of a property is the argument of the last [setVisible] on
    it during the call, and what it was when there was none. *)
Theorem visible_is_last_setVisible fuel c s s' i :
  exec schemaValidator validatorRegistry aggregate fuel c s = Ok s' ->
  visible_of i s'
  = match last_setVisible i (since s s') with
    | Some v => Some v
    | None => visible_of i s
    end.
Proof.
  intros H. apply exec_basic, rtc_basic_visible in H as (t & Hl & Hv).
  unfold since. rewrite Hl, drop_app_length. apply Hv.
Qed.

(** X9.  A call that is not [setVisible] on [j] leaves the visibility of
    [j] alone when no subscription has [j] as its target. *)
Theorem untargeted_keeps_visibility fuel c s s' j :
  exec schemaValidator validatorRegistry aggregate fuel c s = Ok s' ->
  (forall v, c <> CSetVisible j v) ->
  (forall b, b ∈ subs s -> b_target b <> j) ->
  visible_of j s' = visible_of j s.
Proof.
  intros H Hc Hsubs. apply exec_basic in H.
  eapply rtc_basic_untargeted; [exact H|].
  intros [[v ->] | (b & Hb & Ht)]; [by eapply Hc | by eapply Hsubs].
Qed.

(** X10.  [updateValueAndValidity] with [emitEvent] false sends nothing on
    a value stream, so no subscriber runs: everything recorded is at the
    depth of the call, and subscriptions and visibilities are unchanged. *)
Theorem silent_update_runs_no_subscriber fuel i onlySelf s s' :
  exec schemaValidator validatorRegistry aggregate
    fuel (CUpdateValueAndValidity i onlySelf false) s = Ok s' ->
  subs s' = subs s
  /\ Forall (fun e => fst e = depth s) (since s s')
  /\ (forall j, visible_of j s' = visible_of j s)
  /\ Forall (fun e => forall j v x, snd e <> EValueNext j v x) (since s s').
Proof.
  revert i s s'. induction fuel as [|n IH]; intros i s s' H; [discriminate|].
  simpl in H. unfold updateValueAndValidity in H.
  bind_inv H as s1 H1. bind_inv H as s2 H2. bind_inv H as s3 H3.
  bind_inv H as p Hp. injection H2 as <-.
  pose proof H1 as B1. pose proof H3 as B3.
  apply (updateValue_basic _ (fun _ => True)) in B1.
  apply (runValidation_basic _ _ (fun _ => True)) in B3.
  apply updateValue_evolves in H1 as [E1 S1].
  apply runValidation_evolves in H3 as (errs & E3 & S3).
  pose proof (emit_evolves (EUpdateValueAndValidity i onlySelf false) s) as E0.
  pose proof (evolves_trans _ _ _ _ _ (evolves_trans _ _ _ _ _ E0 E1) E3) as E.
  simpl in E. rewrite (ev_depth _ _ _ E1) in E. simpl in E, S1.
  assert (Hvis : forall j, visible_of j s3 = visible_of j s).
  { intros j.
    assert (rtc (basic (fun _ => True)) s s3) as B.
    { etrans; [apply (emit_basic _ (EUpdateValueAndValidity i onlySelf false)); done|].
      etrans; eauto. }
    apply rtc_basic_visible in B as (t & Hl & Hv). rewrite Hv.
    rewrite (ev_log _ _ _ E) in Hl. apply app_inv_head in Hl as <-. done. }
  assert (Hhere : subs s3 = subs s
                  /\ Forall (fun e => fst e = depth s) (since s s3)
                  /\ (forall j, visible_of j s3 = visible_of j s)
                  /\ Forall (fun e => forall j v x, snd e <> EValueNext j v x)
                            (since s s3)).
  { split; [congruence|]. rewrite (evolves_since _ _ _ E).
    split; [|split; [done|]]; repeat constructor; simpl; congruence. }
  destruct (_parent p) as [parent|]; [|by injection H as <-].
  destruct onlySelf; simpl in H; [by injection H as <-|].
  pose proof H as Hrec. apply IH in Hrec as (S4 & D4 & V4 & N4).
  apply exec_shaped in H as (t4 & E4 & _).
  destruct Hhere as (S & D & V & N).
  rewrite (evolves_since _ _ _ E) in D, N.
  rewrite (evolves_since _ _ _ E4) in D4, N4.
  rewrite (evolves_since _ _ _ (evolves_trans _ _ _ _ _ E E4)).
  split; [congruence|]. split; [|split].
  - apply Forall_app. split; [done|]. by rewrite <- (ev_depth _ _ _ E).
  - intros j. by rewrite V4.
  - apply Forall_app. by split.
Qed.

End Invariants.

Lemma strict_eq_JStr x s : strict_eq x (JStr s) = true <-> x = JStr s.
Proof.
  destruct x; simpl; split; try done.
  - intros H. apply String.eqb_eq in H. by subst.
  - intros [= ->]. apply String.eqb_refl.
Qed.

Lemma existsb_sentinel allowed :
  existsb (fun y => strict_eq y (JStr "$ANY$")) allowed = true
  <-> JStr "$ANY$" ∈ allowed.
Proof.
  rewrite existsb_exists. split.
  - intros (x & Hin & Hx). apply strict_eq_JStr in Hx as ->.
    by apply list_elem_of_In.
  - intros H. exists (JStr "$ANY$"). split; [by apply list_elem_of_In|].
    by apply strict_eq_JStr.
Qed.

(** X11.  The function mapped over the value stream.  With the sentinel
    among the allowed values it is [value.length > 0], which throws on
    null and undefined; without it, it is true exactly when an allowed
    value is strictly equal to the value, and so false for every array. *)
Theorem membership_cases allowed value :
  (JStr "$ANY$" ∈ allowed -> membership allowed value = length_gt_0 value)
  /\ (JStr "$ANY$" ∉ allowed ->
      exists found, membership allowed value = Ok found
        /\ (found = true <-> exists x, x ∈ allowed /\ strict_eq x value = true))
  /\ (JStr "$ANY$" ∉ allowed ->
      forall items, membership allowed (JArr items) = Ok false).
Proof.
  unfold membership. rewrite !indexOf_found.
  destruct (existsb (fun y => strict_eq y (JStr "$ANY$")) allowed) eqn:Hany.
  - apply existsb_sentinel in Hany. repeat split; try done.
  - assert (Hno : JStr "$ANY$" ∉ allowed).
    { intros Hin. apply existsb_sentinel in Hin. congruence. }
    split; [done|]. split.
    + intros _. eexists. split; [done|]. rewrite existsb_exists.
      split; intros (x & Hx & Heq); exists x; split; try done;
        by apply list_elem_of_In.
    + intros _ items. rewrite indexOf_found. f_equal.
      apply not_true_is_false. rewrite existsb_exists.
      intros (x & _ & Hx). by destruct x.
Qed.

(** X12.  The combined visibility is true exactly when some dependency has
    both its latest check and its latest visibility true. *)
Theorem combine_iff slots :
  combine slots = true
  <-> exists sl, sl ∈ slots /\ s_check sl = true /\ s_vis sl = true.
Proof.
  rewrite combine_existsb, existsb_exists. unfold and_of. split.
  - intros (sl & Hin & H). apply andb_true_iff in H. exists sl.
    split; [by apply list_elem_of_In | done].
  - intros (sl & Hin & Hc & Hv). exists sl.
    split; [by apply list_elem_of_In | by rewrite Hc, Hv].
Qed.

Lemma chk_item_true h this item :
  chk_item h this item = Ok true -> Forall (path_holds h this) item.
Proof.
  induction item as [|[path allowed] item IH]; [by constructor|].
  cbn [chk_item]. intros H. bind_inv H as prop Hprop.
  bind_inv H as propVal Hval. bind_inv H as ok Hok.
  destruct ok; cbn [negb] in H; [|discriminate].
  constructor; [|by apply IH]. exists prop, propVal. done.
Qed.

Lemma chk_item_false h this item :
  chk_item h this item = Ok false -> ~ Forall (path_holds h this) item.
Proof.
  induction item as [|[path allowed] item IH]; [discriminate|].
  cbn [chk_item]. intros H. bind_inv H as prop Hprop.
  bind_inv H as propVal Hval. bind_inv H as ok Hok.
  intros Hall. apply Forall_cons in Hall as [(prop' & val' & Hs & Hn & Hm) Hrest].
  simpl in Hs, Hm.
  assert (prop' = prop) by congruence. subst.
  assert (val' = propVal) by congruence. subst.
  destruct ok; cbn [negb] in H; [by apply IH | congruence].
Qed.

(** X13.  When [_chk] returns, it returns true exactly when, for every
    dependency path of every item of [allOf], the path resolves from
    [this] and the [_value] read there, now, passes the check of that
    path; the value the stream sent is not looked at. *)
Theorem chk_is_conjunction h this allOf holds :
  _chk h this allOf = Ok holds ->
  (holds = true <->
   forall item, item ∈ allOf -> Forall (path_holds h this) item).
Proof.
  revert holds. induction allOf as [|item allOf IH]; intros holds H.
  - injection H as <-. split; [|done]. intros _ item Hin.
    by apply elem_of_nil in Hin.
  - cbn [_chk] in H. bind_inv H as ok Hok. destruct ok.
    + apply chk_item_true in Hok. specialize (IH _ H). rewrite IH. split.
      * intros Hall x Hx. apply elem_of_cons in Hx as [->|Hx]; auto.
      * intros Hall x Hx. apply Hall. by apply elem_of_cons; right.
    + injection H as <-. apply chk_item_false in Hok. split; [done|].
      intros Hall. destruct Hok. apply Hall. by apply elem_of_cons; left.
Qed.

Section Binder.
Variable schemaValidator : id -> JsValue -> Errors.
Variable validatorRegistry :
  string -> option (Heap -> JsValue -> id -> id -> CustomResult).
Variable aggregate : Heap -> id -> JsValue.

Lemma warn_all_heap this m s : heap (warn_all this m s) = heap s.
Proof.
  revert s. induction m as [|e m IH]; intros s; [done|]. simpl.
  by rewrite IH.
Qed.

Lemma propertiesBinding_unresolved this m : forall s,
  Forall (fun entry => unresolved (heap s) this (fst entry)) m ->
  propertiesBinding this m s = Ok ([], warn_all this m s).
Proof.
  induction m as [|[path allowed] m IH]; intros s Hm; [done|].
  apply Forall_cons in Hm as [Hp Hm].
  cbn [propertiesBinding warn_all fold_left fst].
  unfold unresolved in Hp. cbn [fst] in Hp.
  destruct Hp as [-> | ->]; cbn [res_bind]; by apply IH.
Qed.

Lemma bindVisibility_flat fuel this s p m :
  heap s !! this = Some p -> visibleIf p = VFlat m -> composite m = None ->
  _bindVisibility schemaValidator validatorRegistry aggregate fuel this s
  = bind_clause (exec schemaValidator validatorRegistry aggregate fuel)
      this Membership m s.
Proof.
  intros Hthis Hv Hc. unfold _bindVisibility, __bindVisibility.
  rewrite (get_Some _ _ _ Hthis). cbn [res_bind]. rewrite Hv, Hc.
  cbn [res_bind fst snd]. rewrite (get_Some _ _ _ Hthis). cbn [res_bind].
  by rewrite Hv.
Qed.

(** X14.  A flat clause with dependency paths that are neither inherited
    names nor oneOf, allOf or hasOwnProperty: when none of the paths
    resolves, each giving undefined or null, [_bindVisibility] warns once
    for each path, in order, and that is all: no subscription, no
    [setVisible]. *)
Theorem bind_unresolved fuel this s p m :
  heap s !! this = Some p -> visibleIf p = VFlat m -> m <> [] ->
  plain_paths m ->
  Forall (fun entry => unresolved (heap s) this (fst entry)) m ->
  _bindVisibility schemaValidator validatorRegistry aggregate fuel this s
  = Ok (warn_all this m s).
Proof.
  intros Hthis Hv Hm [Hc Hown] Hun.
  rewrite (bindVisibility_flat _ _ _ _ _ Hthis Hv Hc).
  unfold bind_clause. destruct m as [|e m]; [done|]. rewrite Hown.
  rewrite (propertiesBinding_unresolved _ _ _ Hun). done.
Qed.

(** X15.  Without [visibleIf], and with an empty [oneOf] or [allOf],
    [_bindVisibility] does nothing. *)
Theorem bind_nothing fuel this s p :
  heap s !! this = Some p ->
  visibleIf p = VUndefined \/ visibleIf p = VOneOf [] \/ visibleIf p = VAllOf [] ->
  _bindVisibility schemaValidator validatorRegistry aggregate fuel this s = Ok s.
Proof.
  intros Hthis Hv. unfold _bindVisibility, __bindVisibility.
  rewrite (get_Some _ _ _ Hthis). cbn [res_bind].
  destruct Hv as [Hv | [Hv | Hv]]; rewrite Hv; cbn [res_bind fst snd forEach];
    try done.
  rewrite (get_Some _ _ _ Hthis). cbn [res_bind]. by rewrite Hv.
Qed.

Lemma setVisible_untargeted run i visible s s' :
  runs_basic run ->
  setVisible run i visible s = Ok s' ->
  (forall b, b ∈ subs s -> b_target b <> i) ->
  visible_of i s' = Some visible.
Proof.
  intros Hrun H Hsubs. unfold setVisible in H.
  bind_inv H as s1 H1. bind_inv H as s2 H2. bind_inv H as s3 H3.
  bind_inv H as p Hp.
  set (T := fun j : id => exists b, b ∈ subs s /\ b_target b = j).
  assert (HT : targets_in T s1).
  { unfold modify in H1. bind_inv H1 as q Hq. injection H1 as <-.
    intros b Hb. exists b. done. }
  assert (Hno : ~ T i) by (intros (b & Hb & Ht); by eapply Hsubs).
  assert (V1 : visible_of i s1 = Some visible).
  { unfold modify in H1. bind_inv H1 as q Hq. apply get_Ok in Hq.
    injection H1 as <-. unfold visible_of. cbn [heap with_heap emit] in *.
    unfold id in *. rewrite list_lookup_insert_eq; [done|].
    by eapply lookup_lt_Some. }
  apply (visibilityChanges_next_basic T) in H2; [|done|done].
  assert (HT2 : targets_in T s2) by (by eapply targets_in_rtc).
  apply (run_update_basic T) in H3; [|done|done].
  assert (HT3 : targets_in T s3) by (by eapply targets_in_rtc).
  assert (R : rtc (basic T) s1 s3) by (etrans; eauto).
  assert (R' : rtc (basic T) s1 s').
  { etrans; [exact R|]. destruct (_parent p); [|by injection H as <-].
    by apply (run_update_basic T) in H. }
  by rewrite (rtc_basic_untargeted _ _ _ _ R' Hno).
Qed.

(** X16.  [setVisible] on a property that no subscription targets: when the
    call returns, after the two chains of updates and the callbacks they
    set off, the property has the visibility that was set. *)
Theorem setVisible_sticks fuel i visible s s' :
  exec schemaValidator validatorRegistry aggregate
    fuel (CSetVisible i visible) s = Ok s' ->
  (forall b, b ∈ subs s -> b_target b <> i) ->
  visible_of i s' = Some visible.
Proof.
  intros H Hsubs. destruct fuel as [|n]; [discriminate|]. cbn [exec] in H.
  eapply setVisible_untargeted; [apply exec_basic | exact H | exact Hsubs].
Qed.

(** X17.  The clause [{}]: [_bindVisibility] hides the property and makes
    no subscription. *)
Theorem bind_empty_object fuel this s s' p :
  heap s !! this = Some p -> visibleIf p = VFlat [] ->
  _bindVisibility schemaValidator validatorRegistry aggregate fuel this s = Ok s' ->
  (forall b, b ∈ subs s -> b_target b <> this) ->
  visible_of this s' = Some false
  /\ wiring <$> subs s' = wiring <$> subs s.
Proof.
  intros Hthis Hv H Hsubs.
  rewrite (bindVisibility_flat _ _ _ _ _ Hthis Hv eq_refl) in H.
  cbn [bind_clause] in H. split.
  - destruct fuel as [|n]; [discriminate|]. cbn [exec] in H.
    eapply setVisible_untargeted; [apply exec_basic | exact H | exact Hsubs].
  - by apply exec_basic, rtc_basic_structure in H as [_ Hw].
Qed.



Lemma propertiesBinding_log this m : forall s r,
  propertiesBinding this m s = Ok r ->
  heap (snd r) = heap s /\ subs (snd r) = subs s.
Proof.
  induction m as [|[path allowed] m IH]; intros s r H.
  - by injection H as <-.
  - cbn [propertiesBinding] in H. bind_inv H as q Hq. destruct q.
    + by apply IH in H.
    + by apply IH in H.
    + bind_inv H as r' Hr'. injection H as <-. by apply IH in Hr'.
    + discriminate.
Qed.



Lemma index_paths_log this keys : forall s s',
  index_paths this keys s = Ok s' ->
  heap s' = heap s /\ subs s' = subs s.
Proof.
  induction keys as [|k keys IH]; intros s s' H.
  - by injection H as <-.
  - cbn [index_paths] in H. bind_inv H as q Hq.
    destruct q; try discriminate; by apply IH in H.
Qed.







End Binder.

Section Validation2.
Variable schemaValidator : id -> JsValue -> Errors.
Variable validatorRegistry :
  string -> option (Heap -> JsValue -> id -> id -> CustomResult).

Lemma runValidation_result i s s' :
  _runValidation schemaValidator validatorRegistry i s = Ok s' ->
  exists p errors,
    heap s !! i = Some p
    /\ normal_errors errors
    /\ s' = emit (EErrorsNext i errors)
              (with_heap (<[i := set_errorsChanges errors (set_errors errors p)]>
                            (heap s))
                         (emit (ERunValidation i) s)).
Proof.
  unfold _runValidation. intros H. bind_inv H as p Hp. bind_inv H as e He.
  apply get_Ok in Hp. cbn [heap emit] in Hp.
  set (errors := if (Z.of_nat (length e) =? 0)%Z then None else Some e) in *.
  assert (Hn : normal_errors errors).
  { unfold errors. destruct e; [by left | right; eauto]. }
  exists p, errors. split; [done|]. split; [done|].
  assert (Hlt : i < length (heap s)) by (by eapply lookup_lt_Some).
  unfold id in *.
  bind_inv H as s1 H1. unfold modify in H1. bind_inv H1 as q Hq.
  apply get_Ok in Hq. cbn [heap emit] in Hq. injection H1 as <-.
  unfold setErrors, modify in H. cbn [heap with_heap emit] in H.
  unfold get in H. unfold id in *.
  rewrite list_lookup_insert_eq in H by done. cbn [res_bind heap with_heap] in H.
  rewrite list_lookup_insert_eq in H by (by rewrite length_insert).
  cbn [res_bind] in H. injection H as <-.
  rewrite !list_insert_insert_eq. unfold with_heap, emit. simpl.
  assert (q = p) by congruence. subst. done.
Qed.

(** X19.  [_runValidation] leaves the errors either null or an array with
    at least one error, sends exactly that on the error stream, and
    touches nothing else: the value and the visibility of the property,
    the other properties and the subscriptions are as before, and the
    error stream sends once. *)
Theorem runValidation_normal_form i s s' :
  _runValidation schemaValidator validatorRegistry i s = Ok s' ->
  exists p p',
    heap s !! i = Some p /\ heap s' !! i = Some p'
    /\ normal_errors (_errors p')
    /\ _errorsChanges p' = _errors p'
    /\ _value p' = _value p /\ _visible p' = _visible p
    /\ (forall j, j <> i -> heap s' !! j = heap s !! j)
    /\ subs s' = subs s
    /\ since s s' = [(depth s, ERunValidation i);
                     (depth s, EErrorsNext i (_errors p'))].
Proof.
  intros H. apply runValidation_result in H as (p & errors & Hp & Hn & ->).
  assert (Hlt : i < length (heap s)) by (by eapply lookup_lt_Some).
  exists p, (set_errorsChanges errors (set_errors errors p)).
  cbn [heap subs log depth emit with_heap]. unfold id in *.
  split; [done|]. split; [by apply list_lookup_insert_eq|].
  split; [done|]. split; [done|]. split; [done|]. split; [done|].
  split; [intros j Hj; by apply list_lookup_insert_ne|]. split; [done|].
  unfold since. cbn [log emit with_heap depth]. rewrite <- app_assoc.
  by rewrite drop_app_length.
Qed.

(** X20.  Without a custom validator for the path, [_runValidation] returns
    and the errors are those of the schema validator, null when it gives
    none or an empty array. *)
Theorem runValidation_schema_only i s p :
  heap s !! i = Some p -> validatorRegistry (_path p) = None ->
  exists s' p',
    _runValidation schemaValidator validatorRegistry i s = Ok s'
    /\ heap s' !! i = Some p'
    /\ _errors p' = match schemaValidator i (_value p) with
                    | Some (x :: l) => Some (x :: l)
                    | _ => None
                    end.
Proof.
  intros Hp Hreg.
  assert (Hlt : i < length (heap s)) by (by eapply lookup_lt_Some).
  unfold _runValidation. cbn [heap emit]. rewrite (get_Some _ _ _ Hp).
  cbn [res_bind]. rewrite Hreg. cbn [res_bind].
  set (errors := if (Z.of_nat (length _) =? 0)%Z then None else Some _).
  erewrite modify_Ok; [|exact Hp]. cbn [res_bind].
  edestruct (setErrors_Ok i errors) as (s' & Hs & Hh & _); [|rewrite Hs].
  { cbn [heap with_heap emit]. unfold id in *. by apply list_lookup_insert_eq. }
  eexists _, _. split; [done|]. split; [exact Hh|]. cbn.
  unfold errors. by destruct (schemaValidator i (_value p)) as [[|x l]|].
Qed.

End Validation2.

Lemma same_tree_refl h : same_tree h h.
Proof. done. Qed.

Lemma same_tree_trans h1 h2 h3 :
  same_tree h1 h2 -> same_tree h2 h3 -> same_tree h1 h3.
Proof. unfold same_tree. congruence. Qed.






Lemma forEach_keeps_tree {A} (f : A -> State -> Res State) l :
  keeps_tree f -> forall s s', forEach f l s = Ok s' -> same_tree (heap s) (heap s').
Proof.
  intros Hf. induction l as [|x l IH]; simpl; intros s s' H.
  - by injection H as <-.
  - bind_inv H as s1 H1. eapply same_tree_trans; [by eapply Hf | by apply IH].
Qed.


Section Order.
Context {A : Type}.
Variable h : Heap.
Variable fn : JsRef -> State -> Res State.
Variable visit : JsRef -> option (list A).
Variable act : A -> State -> Res State.
Hypothesis act_keeps : keeps_tree act.
Hypothesis fn_visit : forall child l s,
  visit child = Some l -> same_tree h (heap s) ->
  fn child s = forEach act l s.


End Order.


Lemma forEachChildRecursive_keeps_tree fuel fn :
  keeps_tree fn -> keeps_tree (forEachChildRecursive fuel fn).
Proof.
  intros Hfn. induction fuel as [|n IH]; intros this s s' H; [discriminate|].
  cbn [forEachChildRecursive] in H. unfold forEachChild in H.
  bind_inv H as g Hg. destruct (properties g) as [props|]; [|discriminate].
  eapply (forEach_keeps_tree _ _ _ _ _ H). Unshelve.
  intros k s1 s2 H1. bind_inv H1 as g1 Hg1.
  destruct (properties g1) as [props1|]; [|discriminate].
  bind_inv H1 as s3 H3. apply Hfn in H3.
  destruct (instanceof_PropertyGroup _ _).
  - destruct (obj_get props1 k) as [| |c|k0]; try discriminate.
    apply IH in H1. by eapply same_tree_trans.
  - by injection H1 as <-.
Qed.







Section Traversal2.
Variable schemaValidator : id -> JsValue -> Errors.
Variable validatorRegistry :
  string -> option (Heap -> JsValue -> id -> id -> CustomResult).
Variable aggregate : Heap -> id -> JsValue.





End Traversal2.

Lemma calm_refl s : calm s s.
Proof.
  split; [done|]. split; [done|]. split; [done|]. split; [done|].
  exists []. by rewrite app_nil_r.
Qed.

Lemma calm_trans s1 s2 s3 : calm s1 s2 -> calm s2 s3 -> calm s1 s3.
Proof.
  intros (A1 & B1 & V1 & D1 & t1 & L1 & F1) (A2 & B2 & V2 & D2 & t2 & L2 & F2).
  split; [congruence|]. split; [congruence|]. split; [congruence|].
  split; [congruence|]. exists (t1 ++ t2).
  split; [by rewrite L2, L1, app_assoc|]. apply Forall_app. split; [done|].
  by rewrite <- D1.
Qed.

Lemma calm_emit e s : calm s (emit e s).
Proof.
  split; [done|]. split; [done|]. split; [done|]. split; [done|].
  exists [(depth s, e)]. split; [done|]. by apply Forall_singleton.
Qed.

Lemma modify_calm f i s o :
  parents (heap s) !! i = Some o ->
  (forall p, _parent (f p) = _parent p /\ _visible (f p) = _visible p) ->
  exists s', modify f i s = Ok s' /\ calm s s'.
Proof.
  intros Hi Hf. apply parents_lookup_inv in Hi as (p & Hp & _).
  eexists. split; [by apply modify_Ok|]. split; [done|]. simpl. split; [|split].
  - eapply parents_insert; [done | apply Hf].
  - rewrite list_fmap_insert, (proj2 (Hf p)).
    apply list_insert_id. by rewrite list_lookup_fmap, Hp.
  - split; [done|]. exists []. by rewrite app_nil_r.
Qed.

Section Returns.
Variable schemaValidator : id -> JsValue -> Errors.
Variable validatorRegistry :
  string -> option (Heap -> JsValue -> id -> id -> CustomResult).
Variable aggregate : Heap -> id -> JsValue.

Lemma updateValue_returns i s o :
  parents (heap s) !! i = Some o ->
  exists s', _updateValue aggregate i s = Ok s' /\ calm s s'.
Proof.
  intros Hi. unfold _updateValue.
  destruct (parents_lookup_inv _ _ _ Hi) as (p & Hp & _).
  cbn [heap emit]. rewrite (get_Some _ _ _ Hp). cbn [res_bind].
  destruct (properties p).
  - destruct (modify_calm (set_value (aggregate (heap s) i)) i
                (emit (EUpdateValue i) s) o) as (s' & H & C); [done|done|].
    exists s'. split; [done|]. eapply calm_trans; [apply calm_emit | done].
  - eexists. split; [done|]. apply calm_emit.
Qed.

Lemma setErrors_returns i errors s o :
  parents (heap s) !! i = Some o ->
  exists s', setErrors i errors s = Ok s' /\ calm s s'.
Proof.
  intros Hi. unfold setErrors.
  destruct (modify_calm (set_errors errors) i s o) as (s1 & H1 & C1);
    [done|done|]. rewrite H1. cbn [res_bind].
  destruct (modify_calm (set_errorsChanges errors) i s1 o) as (s2 & H2 & C2);
    [by rewrite (proj1 (proj2 C1))|done|]. rewrite H2. cbn [res_bind].
  eexists. split; [done|].
  eapply calm_trans; [exact C1|]. eapply calm_trans; [exact C2|]. apply calm_emit.
Qed.

Lemma runValidation_returns i s l :
  ancestors (parents (heap s)) i l ->
  exists s', _runValidation schemaValidator validatorRegistry i s = Ok s'
    /\ calm s s'.
Proof.
  intros Hanc. unfold _runValidation.
  assert (Hi : exists o, parents (heap s) !! i = Some o)
    by (inversion Hanc; eauto).
  destruct Hi as (o & Hi).
  destruct (parents_lookup_inv _ _ _ Hi) as (p & Hp & _).
  cbn [heap emit]. rewrite (get_Some _ _ _ Hp). cbn [res_bind].
  set (schema := match schemaValidator i (_value p) with
                 | Some l => l | None => [] end).
  assert (Hmerged : exists errors,
    match validatorRegistry (_path p) with
    | Some customValidator =>
      let* root := findRoot (heap s) i in
      Ok (mergeErrors schema (customValidator (heap s) (_value p) i root))
    | None => Ok schema
    end = Ok errors).
  { destruct (validatorRegistry (_path p)); [|eauto].
    unfold findRoot. rewrite (findRoot_loop_chain _ _ _ Hanc).
    - cbn [res_bind]. eauto.
    - pose proof (ancestors_length _ _ _ Hanc). lia. }
  destruct Hmerged as (errors & ->). cbn [res_bind].
  set (final := if (Z.of_nat (length errors) =? 0)%Z then None else Some errors).
  destruct (modify_calm (set_errors final) i (emit (ERunValidation i) s) o)
    as (s1 & H1 & C1); [done|done|]. rewrite H1. cbn [res_bind].
  destruct (setErrors_returns i final s1 o) as (s2 & H2 & C2);
    [by rewrite (proj1 (proj2 C1))|].
  exists s2. split; [done|].
  eapply calm_trans; [apply calm_emit|]. by eapply calm_trans.
Qed.

Lemma valueChanges_next_returns run i value s o :
  parents (heap s) !! i = Some o -> unwatched s i ->
  exists s', valueChanges_next run i value s = Ok s' /\ calm s s'.
Proof.
  intros Hi Hw. unfold valueChanges_next.
  destruct (parents_lookup_inv _ _ _ Hi) as (p & Hp & _).
  rewrite (get_Some _ _ _ Hp). cbn [res_bind].
  destruct (modify_calm (set_valueChanges value) i s o) as (s1 & H1 & C1);
    [done|done|]. rewrite H1. cbn [res_bind subs emit].
  unfold unwatched in Hw. rewrite (proj1 C1), Hw. cbn [forEach].
  eexists. split; [done|]. eapply calm_trans; [exact C1 | apply calm_emit].
Qed.

Lemma visibilityChanges_next_returns run i visible s o :
  parents (heap s) !! i = Some o -> unwatched s i ->
  exists s', visibilityChanges_next run i visible s = Ok s' /\ calm s s'.
Proof.
  intros Hi Hw. unfold visibilityChanges_next.
  destruct (modify_calm (set_visibilityChanges visible) i s o)
    as (s1 & H1 & C1); [done|done|]. rewrite H1. cbn [res_bind subs emit].
  unfold unwatched in Hw. rewrite (proj1 C1), Hw. cbn [forEach].
  eexists. split; [done|]. eapply calm_trans; [exact C1 | apply calm_emit].
Qed.

Lemma updateValueAndValidity_returns run i onlySelf emitEvent s l :
  ancestors (parents (heap s)) i l -> unwatched s i ->
  (forall g l' s3, l = g :: l' -> calm s s3 ->
     exists s4, run (CUpdateValueAndValidity g onlySelf emitEvent) s3 = Ok s4
       /\ calm s3 s4) ->
  exists s', updateValueAndValidity schemaValidator validatorRegistry aggregate
               run i onlySelf emitEvent s = Ok s'
    /\ calm s s'.
Proof.
  intros Hanc Hw Hrun. unfold updateValueAndValidity.
  assert (Hi : exists o, parents (heap s) !! i = Some o)
    by (inversion Hanc; eauto).
  destruct Hi as (o & Hi).
  set (s0 := emit (EUpdateValueAndValidity i onlySelf emitEvent) s).
  destruct (updateValue_returns i s0 o) as (s1 & H1 & C1); [done|].
  rewrite H1. cbn [res_bind].
  assert (C01 : calm s s1) by (eapply calm_trans; [apply calm_emit | exact C1]).
  assert (Hsent : exists s2,
    (if emitEvent
     then let* p := get (heap s1) i in valueChanges_next run i (_value p) s1
     else Ok s1) = Ok s2 /\ calm s1 s2).
  { destruct emitEvent; [|by eauto using calm_refl].
    assert (Hi1 : parents (heap s1) !! i = Some o) by (by rewrite (proj1 (proj2 C01))).
    destruct (parents_lookup_inv _ _ _ Hi1) as (p1 & Hp1 & _).
    rewrite (get_Some _ _ _ Hp1). cbn [res_bind].
    apply valueChanges_next_returns with o; [done|].
    unfold unwatched in *. by rewrite (proj1 C01). }
  destruct Hsent as (s2 & H2 & C2). rewrite H2. cbn [res_bind].
  assert (C02 : calm s s2) by (by eapply calm_trans).
  destruct (runValidation_returns i s2 l) as (s3 & H3 & C3);
    [by rewrite (proj1 (proj2 C02))|].
  rewrite H3. cbn [res_bind].
  assert (C03 : calm s s3) by (by eapply calm_trans).
  assert (Hi3 : parents (heap s3) !! i = Some o) by (by rewrite (proj1 (proj2 C03))).
  destruct (parents_lookup_inv _ _ _ Hi3) as (p3 & Hp3 & Hpar).
  rewrite (get_Some _ _ _ Hp3). cbn [res_bind].
  inversion Hanc as [? Hroot | ? g l' Hstep Hrest]; subst.
  - assert (_parent p3 = None) as -> by congruence. eauto.
  - assert (_parent p3 = Some g) as -> by congruence.
    destruct onlySelf; cbn [negb]; [by eauto|].
    destruct (Hrun g l' s3) as (s4 & H4 & C4); [done|done|].
    exists s4. split; [done|]. by eapply calm_trans.
Qed.

Lemma update_returns onlySelf emitEvent i l : forall s fuel,
  ancestors (parents (heap s)) i l ->
  Forall (unwatched s) (i :: l) ->
  length l < fuel ->
  exists s',
    exec schemaValidator validatorRegistry aggregate fuel
      (CUpdateValueAndValidity i onlySelf emitEvent) s = Ok s'
    /\ calm s s'.
Proof.
  revert i. induction l as [|g l IH]; intros i s fuel Hanc Hw Hfuel;
    (destruct fuel as [|n]; [simpl in Hfuel; lia|]); cbn [exec];
    apply Forall_cons in Hw as [Hwi Hw].
  - eapply updateValueAndValidity_returns; [exact Hanc|done|]. intros; done.
  - eapply updateValueAndValidity_returns; [exact Hanc|done|].
    intros g' l' s3 [= <- <-] C. inversion Hanc; subst. apply IH.
    + by rewrite (proj1 (proj2 C)).
    + eapply Forall_impl; [exact Hw|]. intros j Hj. unfold unwatched in *.
      by rewrite (proj1 C).
    + simpl in Hfuel. lia.
Qed.

(** X24.  [updateValueAndValidity] returns when no subscription watches
    the property or an ancestor of it: fuel for the chain of ancestors is
    enough, and the subscriptions are left as they were. *)
Theorem unwatched_update_returns fuel i onlySelf emitEvent s l :
  ancestors (parents (heap s)) i l ->
  Forall (unwatched s) (i :: l) ->
  length l < fuel ->
  exists s',
    exec schemaValidator validatorRegistry aggregate fuel
      (CUpdateValueAndValidity i onlySelf emitEvent) s = Ok s'
    /\ subs s' = subs s.
Proof.
  intros Hanc Hw Hfuel.
  destruct (update_returns onlySelf emitEvent i l s fuel) as (s' & H & C);
    try done.
  exists s'. split; [done | apply C].
Qed.

Lemma setVisible_calm visible i l s fuel :
  ancestors (parents (heap s)) i l ->
  Forall (unwatched s) (i :: l) ->
  S (length l) < fuel ->
  exists s',
    exec schemaValidator validatorRegistry aggregate fuel
      (CSetVisible i visible) s = Ok s'
    /\ visible_of i s' = Some visible
    /\ subs s' = subs s
    /\ parents (heap s') = parents (heap s)
    /\ depth s' = depth s
    /\ exists t, log s' = log s ++ (depth s, ESetVisible i visible) :: t
                 /\ Forall (fun e => fst e = depth s) t.
Proof.
  intros Hanc Hw Hfuel. destruct fuel as [|n]; [lia|]. cbn [exec].
  unfold setVisible.
  assert (Hi : exists o, parents (heap s) !! i = Some o)
    by (inversion Hanc; eauto).
  destruct Hi as (o & Hi).
  set (s0 := emit (ESetVisible i visible) s).
  destruct (parents_lookup_inv _ _ _ Hi) as (p & Hp & Hpar).
  rewrite (modify_Ok (set_visible visible) i s0 p) by done. cbn [res_bind].
  set (s1 := with_heap _ s0).
  assert (S1 : subs s1 = subs s) by done.
  assert (P1 : parents (heap s1) = parents (heap s)).
  { simpl. by eapply parents_insert. }
  assert (V1 : visible_of i s1 = Some visible).
  { unfold visible_of, s1. cbn [heap with_heap emit]. unfold id in *.
    rewrite list_lookup_insert_eq; [done | by eapply lookup_lt_Some]. }
  assert (keep : forall s2, calm s1 s2 ->
            ancestors (parents (heap s2)) i l
            /\ Forall (unwatched s2) (i :: l)
            /\ visible_of i s2 = Some visible /\ subs s2 = subs s).
  { intros s2 (A & B & V & _). split; [by rewrite B, P1|]. split; [|split].
    - eapply Forall_impl; [exact Hw|]. intros j Hj. unfold unwatched in *.
      by rewrite A, S1.
    - rewrite <- V1. unfold visible_of. rewrite <- !list_lookup_fmap.
      by rewrite V.
    - congruence. }
  assert (done_ : forall s4, calm s1 s4 ->
            visible_of i s4 = Some visible
            /\ subs s4 = subs s
            /\ parents (heap s4) = parents (heap s)
            /\ depth s4 = depth s
            /\ exists t, log s4 = log s ++ (depth s, ESetVisible i visible) :: t
                         /\ Forall (fun e => fst e = depth s) t).
  { intros s4 C. destruct (keep s4 C) as (_ & _ & V4 & S4).
    destruct C as (_ & B & _ & D & t & L & F).
    split; [done|]. split; [done|]. split; [by rewrite B, P1|].
    split; [done|]. exists t. split; [|done]. rewrite L. simpl.
    by rewrite <- app_assoc. }
  destruct (visibilityChanges_next_returns
              (exec schemaValidator validatorRegistry aggregate n)
              i visible s1 o) as (s2 & H2 & C2).
  { by rewrite P1. }
  { destruct (keep s1 (calm_refl _)) as (_ & W & _).
    by apply Forall_cons in W as [? _]. }
  rewrite H2. cbn [res_bind].
  destruct (keep s2 C2) as (A2 & W2 & _).
  destruct (update_returns false true i l s2 n A2 W2) as (s3 & H3 & C3);
    [lia|].
  rewrite H3. cbn [res_bind].
  assert (C13 : calm s1 s3) by (by eapply calm_trans).
  destruct (keep s3 C13) as (A3 & W3 & V3 & S3).
  inversion A3 as [? Hroot | ? g l' Hstep Hrest]; subst.
  - apply parents_lookup_inv in Hroot as (p3 & Hp3 & Hpar3).
    rewrite (get_Some _ _ _ Hp3). cbn [res_bind]. rewrite Hpar3.
    exists s3. split; [done|]. by apply done_.
  - apply parents_lookup_inv in Hstep as (p3 & Hp3 & Hpar3).
    rewrite (get_Some _ _ _ Hp3). cbn [res_bind]. rewrite Hpar3.
    apply Forall_cons in W3 as [_ W3].
    destruct (update_returns false true g l' s3 n Hrest W3) as (s4 & H4 & C4).
    { simpl in Hfuel. lia. }
    exists s4. split; [done|]. apply done_. by eapply calm_trans.
Qed.

(** X25.  [setVisible] returns when no subscription watches the property
    or an ancestor of it, and the property then has the visibility that
    was set. *)
Theorem unwatched_setVisible_returns fuel i visible s l :
  ancestors (parents (heap s)) i l ->
  Forall (unwatched s) (i :: l) ->
  S (length l) < fuel ->
  exists s',
    exec schemaValidator validatorRegistry aggregate fuel
      (CSetVisible i visible) s = Ok s'
    /\ subs s' = subs s
    /\ visible_of i s' = Some visible.
Proof.
  intros Hanc Hw Hfuel.
  destruct (setVisible_calm visible i l s fuel Hanc Hw Hfuel)
    as (s' & H & V & S & _).
  exists s'. done.
Qed.

End Returns.

Section SyncedBinder.
Variable schemaValidator : id -> JsValue -> Errors.
Variable validatorRegistry :
  string -> option (Heap -> JsValue -> id -> id -> CustomResult).
Variable aggregate : Heap -> id -> JsValue.

Lemma bind_clause_synced fuel this mode m s s' :
  all_synced s ->
  bind_clause (exec schemaValidator validatorRegistry aggregate fuel)
    this mode m s = Ok s' ->
  all_synced s'.
Proof.
  intros Hs H. unfold bind_clause in H. destruct m as [|e m].
  - eapply exec_synced; eauto.
  - destruct (own_property (e :: m) "hasOwnProperty"); [discriminate|].
    bind_inv H as r Hr. apply propertiesBinding_log in Hr as [_ Hsub].
    unfold subscribe in H. destruct (fst r) as [|d deps].
    { injection H as <-. unfold all_synced. by rewrite Hsub. }
    destruct (subscribe_slots _ _ _) as [slots|[]]; try discriminate.
    + eapply callback_synced; [apply exec_synced| |exact H].
      unfold all_synced. cbn [subs with_subs]. rewrite Hsub.
      apply Forall_app. split; [done|]. by apply Forall_singleton.
    + injection H as <-. unfold all_synced. by rewrite Hsub.
Qed.

Lemma forEach_clause_synced fuel this mode branches : forall s s',
  all_synced s ->
  forEach (bind_clause (exec schemaValidator validatorRegistry aggregate fuel)
             this mode) branches s = Ok s' ->
  all_synced s'.
Proof.
  induction branches as [|m branches IH]; intros s s' Hs H.
  - by injection H as <-.
  - cbn [forEach] in H. bind_inv H as s1 H1.
    apply bind_clause_synced in H1; [|done]. by eapply IH.
Qed.

Lemma forEach_element_synced fuel this elements : forall s s',
  all_synced s ->
  forEach (bind_element (exec schemaValidator validatorRegistry aggregate fuel)
             this) elements s = Ok s' ->
  all_synced s'.
Proof.
  induction elements as [|e elements IH]; intros s s' Hs H.
  - by injection H as <-.
  - cbn [forEach] in H. bind_inv H as s1 H1. eapply IH; [|exact H].
    assert (Hidx : forall keys, index_paths this keys s = Ok s1 -> all_synced s1).
    { intros keys Hk. apply index_paths_log in Hk as [_ Hsub].
      unfold all_synced. by rewrite Hsub. }
    destruct e as [| |b|n|str|items]; cbn [bind_element] in H1;
      try discriminate; try (by injection H1 as <-); eauto.
    destruct items as [|x items]; [|eauto]. eapply exec_synced; eauto.
Qed.

(** X26.  Between calls, the value [distinctUntilChanged] remembers for a
    subscription is the combination of the latest check and visibility of
    its dependencies: [updateValueAndValidity], [setVisible] and
    [_bindVisibility] all keep it so, whatever callbacks they set off. *)
Theorem subscriptions_stay_synced fuel s :
  all_synced s ->
  (forall c s', exec schemaValidator validatorRegistry aggregate fuel c s = Ok s'
     -> all_synced s')
  /\ (forall this s',
        _bindVisibility schemaValidator validatorRegistry aggregate
          fuel this s = Ok s' -> all_synced s').
Proof.
  intros Hs. split; [intros c s' H; by eapply exec_synced|].
  intros this s' H. unfold _bindVisibility, __bindVisibility in H.
  bind_inv H as r Hr. bind_inv Hr as p Hp.
  destruct (visibleIf p) as [|m|branches|branches] eqn:Hv.
  - injection Hr as <-. cbn [fst snd] in H. rewrite Hp in H.
    cbn [res_bind] in H. rewrite Hv in H. by injection H as <-.
  - destruct (composite m) as [elements|] eqn:Hc.
    + bind_inv Hr as s1 H1. injection Hr as <-. cbn [fst snd] in H.
      injection H as <-. by eapply forEach_element_synced.
    + injection Hr as <-. cbn [fst snd] in H. rewrite Hp in H.
      cbn [res_bind] in H. rewrite Hv in H. by eapply bind_clause_synced.
  - bind_inv Hr as s1 H1. injection Hr as <-. cbn [fst snd] in H.
    injection H as <-. by eapply forEach_clause_synced.
  - bind_inv Hr as s1 H1. injection Hr as <-. cbn [fst snd] in H.
    injection H as <-. by eapply forEach_clause_synced.
Qed.

End SyncedBinder.

Lemma observers_snoc bs b j :
  observers (bs ++ [b]) j = observers bs j ++ slots_on j (length bs) b.
Proof.
  unfold observers. rewrite imap_app, concat_app. f_equal.
  cbn [imap concat]. rewrite app_nil_r. f_equal. lia.
Qed.

Section Binding.
Variable schemaValidator : id -> JsValue -> Errors.
Variable validatorRegistry :
  string -> option (Heap -> JsValue -> id -> id -> CustomResult).
Variable aggregate : Heap -> id -> JsValue.

Lemma bind_one_dependency fuel this s p path allowed d :
  heap s !! this = Some p -> visibleIf p = VFlat [(path, allowed)] ->
  plain_paths [(path, allowed)] ->
  searchProperty (heap s) this path = Ok (RObj d) ->
  _bindVisibility schemaValidator validatorRegistry aggregate fuel this s
  = subscribe (exec schemaValidator validatorRegistry aggregate fuel)
      this Membership [(d, allowed)] s.
Proof.
  intros Hthis Hv [Hc Hown] Hd.
  rewrite (bindVisibility_flat _ _ _ _ _ _ _ _ Hthis Hv Hc).
  unfold bind_clause. rewrite Hown. cbn [propertiesBinding]. rewrite Hd. done.
Qed.

(** X27.  A flat clause with one dependency, on a path that is not named
    oneOf, allOf or hasOwnProperty and whose allowed values hold the
    sentinel, bound while the value stream of the dependency still holds
    its initial null: the mapped function throws on [value.length], the
    subscription ends with that error, and [_bindVisibility] leaves
    everything as it was, with no subscription made and no [setVisible]. *)
Theorem bind_sentinel_on_null fuel this s p path allowed d q :
  heap s !! this = Some p -> visibleIf p = VFlat [(path, allowed)] ->
  plain_paths [(path, allowed)] ->
  searchProperty (heap s) this path = Ok (RObj d) ->
  heap s !! d = Some q ->
  JStr "$ANY$" ∈ allowed ->
  _valueChanges q = JNull \/ _valueChanges q = JUndefined ->
  _bindVisibility schemaValidator validatorRegistry aggregate fuel this s = Ok s.
Proof.
  intros Hthis Hv Hplain Hd Hq Hany Hnull.
  rewrite (bind_one_dependency _ _ _ _ _ _ _ Hthis Hv Hplain Hd).
  unfold subscribe. cbn [subscribe_slots]. rewrite (get_Some _ _ _ Hq).
  cbn [res_bind project b_mode s_allowed].
  assert (Hm : membership allowed (_valueChanges q)
               = length_gt_0 (_valueChanges q)).
  { unfold membership. rewrite indexOf_found.
    apply existsb_sentinel in Hany. by rewrite Hany. }
  rewrite Hm. by destruct Hnull as [-> | ->].
Qed.

(** X28.  A flat clause with one dependency, on a path that is not named
    oneOf, allOf or hasOwnProperty, and no sentinel: when the dependency
    resolves and nothing watches the property or its ancestors,
    [_bindVisibility] returns; it subscribes and the subscriber is called
    at once, so the first thing recorded is [setVisible] of the property,
    one level deeper, with (the value the value stream holds is allowed)
    AND (the visibility the visibility stream holds); that is the
    visibility of the property afterwards, and the new subscription comes
    after the older ones. *)
Theorem bind_calls_setVisible_at_once fuel this s p path allowed d q l :
  heap s !! this = Some p -> visibleIf p = VFlat [(path, allowed)] ->
  plain_paths [(path, allowed)] ->
  searchProperty (heap s) this path = Ok (RObj d) ->
  heap s !! d = Some q ->
  JStr "$ANY$" ∉ allowed ->
  ancestors (parents (heap s)) this l ->
  Forall (unwatched s) (this :: l) -> d ∉ this :: l ->
  S (length l) < fuel ->
  exists s',
    _bindVisibility schemaValidator validatorRegistry aggregate fuel this s = Ok s'
    /\ (exists t,
          log s' = log s
                   ++ (S (depth s),
                       ESetVisible this
                         (existsb (fun x => strict_eq x (_valueChanges q)) allowed
                          && _visibilityChanges q)) :: t)
    /\ wiring <$> subs s'
       = (wiring <$> subs s) ++ [(this, Membership, [(d, allowed)])]
    /\ visible_of this s'
       = Some (existsb (fun x => strict_eq x (_valueChanges q)) allowed
               && _visibilityChanges q).
Proof.
  intros Hthis Hv Hplain Hd Hq Hany Hanc Hw Hdl Hfuel.
  rewrite (bind_one_dependency _ _ _ _ _ _ _ Hthis Hv Hplain Hd).
  unfold subscribe. cbn [subscribe_slots].
  rewrite (get_Some _ _ _ Hq).
  cbn [res_bind project b_mode s_allowed].
  assert (Hm : membership allowed (_valueChanges q)
               = Ok (existsb (fun x => strict_eq x (_valueChanges q)) allowed)).
  { unfold membership. rewrite !indexOf_found.
    destruct (existsb (fun y => strict_eq y (JStr "$ANY$")) allowed) eqn:E; [|done].
    apply existsb_sentinel in E. done. }
  rewrite Hm. cbn [res_bind]. rewrite combine_one.
  cbn [s_check s_vis set_check].
  set (visible := existsb _ allowed && _visibilityChanges q).
  set (b := set_last visible _).
  unfold callback.
  set (s2 := with_depth _ (with_subs (subs s ++ [b]) s)).
  assert (Hw2 : Forall (unwatched s2) (this :: l)).
  { apply Forall_forall. intros j Hj. rewrite Forall_forall in Hw.
    specialize (Hw j Hj). unfold unwatched in *. cbn [subs s2 with_depth with_subs].
    rewrite observers_snoc, Hw. unfold slots_on. cbn.
    destruct (Nat.eqb_spec d j) as [->|]; [done | done]. }
  destruct (setVisible_calm schemaValidator validatorRegistry aggregate
              visible this l s2 fuel Hanc Hw2 Hfuel)
    as (s3 & H3 & V3 & S3 & P3 & D3 & t & L3 & F3).
  rewrite H3. cbn [res_bind]. eexists. split; [done|].
  cbn [log subs with_depth]. split; [by exists t|]. split.
  - rewrite S3. cbn [subs s2 with_depth with_subs]. by rewrite fmap_app.
  - exact V3.
Qed.

End Binding.

Lemma getProperty_rec_into_group n h this g props head rest c :
  h !! this = Some g -> properties g = Some props ->
  no_slash head = true ->
  obj_get props head = RObj c ->
  instanceof_PropertyGroup h (RObj c) = true ->
  getProperty_rec (S n) h this (head ++ String "/" rest)%string
  = getProperty_rec n h c rest.
Proof.
  intros Hthis Hprops Hhead Hget Hgroup.
  cbn [getProperty_rec]. rewrite (str_indexOf_head _ _ Hhead).
  unfold get. rewrite Hthis. cbn [res_bind]. rewrite Hprops.
  assert (Hne : Zneqb (Z.of_nat (String.length head)) (-1) = true)
    by (apply Zneqb_true; lia).
  rewrite Hne, substr_head, Hget, Hgroup. cbn [is_null negb andb].
  by rewrite substr_from_tail.
Qed.

Lemma getProperty_leads h g keys r :
  leads_to h g keys r -> getProperty h g (join keys) = Ok r.
Proof.
  induction 1 as [g p props k Hg Hp Hk | g p props k c keys r Hg Hp Hk Hc Hgr Hne _ IH].
  - cbn [join]. unfold getProperty. cbn [getProperty_rec].
    unfold get. rewrite Hg. cbn [res_bind]. rewrite Hp.
    rewrite (str_indexOf_no_slash _ Hk).
    change (Zneqb (-1) (-1)) with false. cbn iota.
    by rewrite andb_false_r.
  - assert (Hj : join (k :: keys) = (k ++ String "/" (join keys))%string).
    { destruct keys; [done | done]. }
    rewrite Hj. unfold getProperty.
    rewrite (getProperty_rec_into_group _ _ _ _ _ _ _ _ Hg Hp Hk Hc Hgr).
    rewrite <- IH. unfold getProperty.
    apply getProperty_rec_fuel; rewrite ?length_append; simpl; lia.
Qed.

(** X5.  An absolute path resolves by walking down from the root: from
    any property of the tree, [searchProperty] of the path /k1/.../kn is
    what following the keys k1, ..., kn from the root leads to. *)
Theorem searchProperty_absolute_path h this l keys r :
  ancestors (parents h) this l ->
  leads_to h (List.last l this) keys r ->
  searchProperty h this (String "/" (join keys)) = Ok r.
Proof.
  intros Hanc Hlead. unfold searchProperty. cbn [String.get].
  unfold findRoot. rewrite (findRoot_loop_chain _ _ _ Hanc).
  - cbn [res_bind]. rewrite substr_from_slash. by apply getProperty_leads.
  - pose proof (ancestors_length _ _ _ Hanc). lia.
Qed.

Section OwnSteps.
Variable schemaValidator : id -> JsValue -> Errors.
Variable validatorRegistry :
  string -> option (Heap -> JsValue -> id -> id -> CustomResult).
Variable aggregate : Heap -> id -> JsValue.

(** X29.  Whatever subscriptions there are: a call of
    [updateValueAndValidity] that returns has itself, the callbacks of
    subscribers apart, made the five steps of an update on the property
    and then, unless [onlySelf], on each of its ancestors in turn, the
    value sent ([emitEvent]) before the validation; depth and parents are
    as before. *)
Theorem update_own_steps fuel i onlySelf emitEvent s s' :
  exec schemaValidator validatorRegistry aggregate
    fuel (CUpdateValueAndValidity i onlySelf emitEvent) s = Ok s' ->
  (exists l,
     (if onlySelf then l = [] else ancestors (parents (heap s)) i l)
     /\ steps (depth s) (since s s')
        = flat_map (update_steps emitEvent) (i :: l))
  /\ Forall (fun e => depth s <= fst e) (since s s')
  /\ depth s' = depth s /\ parents (heap s') = parents (heap s).
Proof.
  intros H. apply exec_shaped in H as (t & E & Hshape).
  rewrite (evolves_since _ _ _ E). split; [|split; [|split]].
  - destruct onlySelf; cbn [shape] in Hshape.
    + exists []. split; [done|]. rewrite Hshape. cbn [flat_map].
      by rewrite app_nil_r.
    + destruct Hshape as (l & Hanc & Hsteps). by exists l.
  - apply (ev_deep _ _ _ E).
  - apply (ev_depth _ _ _ E).
  - apply (ev_parents _ _ _ E).
Qed.

(** X30.  Whatever subscriptions there are: a call of [setVisible] that
    returns has itself, the callbacks of subscribers apart, assigned and
    sent the visibility and then made one chain of updates from the
    property to the root and a second one from its parent to the root. *)
Theorem setVisible_own_steps fuel i visible s s' :
  exec schemaValidator validatorRegistry aggregate
    fuel (CSetVisible i visible) s = Ok s' ->
  (exists l,
     ancestors (parents (heap s)) i l
     /\ steps (depth s) (since s s')
        = [SSetVisible i; SVisibilityNext i]
          ++ flat_map (update_steps true) (i :: l)
          ++ flat_map (update_steps true) l)
  /\ Forall (fun e => depth s <= fst e) (since s s')
  /\ depth s' = depth s /\ parents (heap s') = parents (heap s).
Proof.
  intros H. apply exec_shaped in H as (t & E & Hshape).
  rewrite (evolves_since _ _ _ E). split; [|split; [|split]].
  - exact Hshape.
  - apply (ev_deep _ _ _ E).
  - apply (ev_depth _ _ _ E).
  - apply (ev_parents _ _ _ E).
Qed.

End OwnSteps.

(** ** The properties on the example forms *)

(** X2 in the nested form. *)
Lemma getProperty_descends_witness :
  obj_get [("group1", RObj 1)] "group1" = RObj 1
  /\ instanceof_PropertyGroup nested (RObj 1) = true
  /\ getProperty nested 0 "group1/group2/leaf" = getProperty nested 1 "group2/leaf".
Proof.
  split; [reflexivity|]. split; [reflexivity|].
  apply (getProperty_descends nested 0 _ _ "group1" "group2/leaf" 1
           eq_refl eq_refl eq_refl eq_refl eq_refl).
Defined.

(** X3 in the nested form: sibling is a leaf of group1. *)
Lemma getProperty_stops_at_non_group_witness :
  instanceof_PropertyGroup nested (RObj 4) = false
  /\ getProperty nested 1 "sibling" = Ok (RObj 4)
  /\ getProperty nested 1 "sibling/x" = Ok (RObj 4).
Proof.
  split; [reflexivity|].
  apply (getProperty_stops_at_non_group nested 1 _
           [("group2", RObj 2); ("sibling", RObj 4)] "sibling" "x"
           eq_refl eq_refl eq_refl eq_refl).
Defined.

(** X4 in the nested form, from the leaf. *)
Lemma findRoot_reaches_root_witness :
  ancestors (parents nested) 3 [2; 1; 0]
  /\ exists root p,
       findRoot nested 3 = Ok root /\ List.last [2; 1; 0] 3 = root
       /\ nested !! root = Some p /\ _parent p = None.
Proof.
  assert (H : ancestors (parents nested) 3 [2; 1; 0]).
  { apply ancestors_step; [reflexivity|]. apply ancestors_step; [reflexivity|].
    apply ancestors_step; [reflexivity|]. apply ancestors_root. reflexivity. }
  split; [exact H|]. exact (findRoot_reaches_root nested 3 [2; 1; 0] H).
Defined.

(** X5 in the nested form: from its uncle, the absolute path of the leaf
    leads to the leaf. *)
Lemma searchProperty_absolute_path_witness :
  ancestors (parents nested) 4 [1; 0]
  /\ leads_to nested 0 ["group1"; "group2"; "leaf"] (RObj 3)
  /\ searchProperty nested 4 "/group1/group2/leaf" = Ok (RObj 3).
Proof.
  assert (H : ancestors (parents nested) 4 [1; 0]).
  { apply ancestors_step; [reflexivity|]. apply ancestors_step; [reflexivity|].
    apply ancestors_root. reflexivity. }
  assert (L : leads_to nested 0 ["group1"; "group2"; "leaf"] (RObj 3)).
  { apply (leads_step nested 0 _ [("group1", RObj 1)] "group1" 1
             ["group2"; "leaf"] (RObj 3) eq_refl eq_refl eq_refl eq_refl eq_refl).
    { intros E. discriminate E. }
    apply (leads_step nested 1 _ [("group2", RObj 2); ("sibling", RObj 4)]
             "group2" 2 ["leaf"] (RObj 3) eq_refl eq_refl eq_refl eq_refl eq_refl).
    { intros E. discriminate E. }
    exact (leads_last nested 2 _ [("leaf", RObj 3)] "leaf"
             eq_refl eq_refl eq_refl). }
  split; [exact H|]. split; [exact L|].
  exact (searchProperty_absolute_path nested 4 [1; 0]
           ["group1"; "group2"; "leaf"] (RObj 3) H L).
Defined.

(** X6 in the nested form: group2 has no sibling of its own, and answers
    [undefined]. *)
Lemma searchProperty_relative_witness :
  relative "sibling"
  /\ ancestors (parents nested) 3 [2; 1; 0]
  /\ searchProperty nested 3 "sibling"
     = Ok (first_non_null [RUndefined; RObj 4; RUndefined]).
Proof.
  assert (R : relative "sibling") by (intros H; discriminate H).
  assert (H : ancestors (parents nested) 3 [2; 1; 0]).
  { apply ancestors_step; [reflexivity|]. apply ancestors_step; [reflexivity|].
    apply ancestors_step; [reflexivity|]. apply ancestors_root. reflexivity. }
  split; [exact R|]. split; [exact H|].
  apply (searchProperty_relative nested 3 "sibling" [2; 1; 0]
           [RUndefined; RObj 4; RUndefined] R H).
  constructor; [reflexivity|]. constructor; [reflexivity|].
  constructor; [reflexivity|]. constructor.
Defined.

(** X7 in the example form with the flat clause bound. *)
Lemma exec_keeps_structure_witness :
  run8 (CUpdateValueAndValidity 1 false true) bound_flat = Ok flat_updated
  /\ length (heap flat_updated) = length (heap bound_flat)
  /\ skeleton <$> heap flat_updated = skeleton <$> heap bound_flat
  /\ wiring <$> subs flat_updated = wiring <$> subs bound_flat.
Proof.
  split; [vm_compute; reflexivity|].
  apply (exec_keeps_structure required no_registry children_values 8
           (CUpdateValueAndValidity 1 false true)).
  vm_compute; reflexivity.
Defined.

(** X8: hiding the leaf of the nested form. *)
Lemma visible_is_last_setVisible_witness :
  run8 (CSetVisible 3 false) nested_state = Ok nested_hidden
  /\ visible_of 3 nested_hidden
     = match last_setVisible 3 (since nested_state nested_hidden) with
       | Some v => Some v
       | None => visible_of 3 nested_state
       end.
Proof.
  split; [vm_compute; reflexivity|].
  apply (visible_is_last_setVisible required no_registry children_values 8
           (CSetVisible 3 false)).
  vm_compute; reflexivity.
Defined.

(** X9: the field b when the field a is updated; the one subscription of
    the form has p as its target. *)
Lemma untargeted_keeps_visibility_witness :
  run8 (CUpdateValueAndValidity 1 false true) bound_flat = Ok flat_updated
  /\ visible_of 2 flat_updated = visible_of 2 bound_flat.
Proof.
  split; [vm_compute; reflexivity|].
  apply (untargeted_keeps_visibility required no_registry children_values 8
           (CUpdateValueAndValidity 1 false true)).
  - vm_compute; reflexivity.
  - intros v H. discriminate H.
  - intros b Hb. cbn [subs bound_flat] in Hb.
    apply list_elem_of_singleton in Hb. rewrite Hb. intros H. discriminate H.
Defined.

(** X10 in the example form with the flat clause bound. *)
Lemma silent_update_runs_no_subscriber_witness :
  run8 (CUpdateValueAndValidity 1 false false) bound_flat = Ok flat_silent
  /\ subs flat_silent = subs bound_flat
  /\ Forall (fun e => fst e = depth bound_flat) (since bound_flat flat_silent)
  /\ (forall j, visible_of j flat_silent = visible_of j bound_flat)
  /\ Forall (fun e => forall j v x, snd e <> EValueNext j v x)
            (since bound_flat flat_silent).
Proof.
  split; [vm_compute; reflexivity|].
  apply (silent_update_runs_no_subscriber required no_registry children_values
           8 1 false).
  vm_compute; reflexivity.
Defined.

(** X13 in the example form with a = "x" and b = "y". *)
Lemma chk_is_conjunction_witness :
  _chk (heap allOf_xy) 3 [[("a", [JStr "x"]); ("b", [JStr "y"])]] = Ok true
  /\ (true = true <->
      forall item, item ∈ [[("a", [JStr "x"]); ("b", [JStr "y"])]] ->
        Forall (path_holds (heap allOf_xy) 3) item).
Proof.
  split; [vm_compute; reflexivity|].
  apply (chk_is_conjunction (heap allOf_xy) 3
           [[("a", [JStr "x"]); ("b", [JStr "y"])]] true).
  vm_compute; reflexivity.
Defined.

(** X14: the form has no field c. *)
Lemma bind_unresolved_witness :
  unresolved (heap (form missing_clause)) 3 "c"
  /\ plain_paths [("c", [JStr "x"])]
  /\ bind8 3 (form missing_clause)
     = Ok (warn_all 3 [("c", [JStr "x"])] (form missing_clause)).
Proof.
  assert (U : unresolved (heap (form missing_clause)) 3 "c")
    by (left; vm_compute; reflexivity).
  assert (P : plain_paths [("c", [JStr "x"])]) by (split; reflexivity).
  split; [exact U|]. split; [exact P|].
  apply (bind_unresolved required no_registry children_values 8 3
           (form missing_clause) (field_p missing_clause) [("c", [JStr "x"])]
           eq_refl eq_refl).
  - intros H. discriminate H.
  - exact P.
  - apply Forall_cons. split; [exact U | apply Forall_nil; exact I].
Defined.

(** X15: the field p without a clause. *)
Lemma bind_nothing_witness :
  heap plain !! 3 = Some (field_p VUndefined)
  /\ bind8 3 plain = Ok plain.
Proof.
  split; [reflexivity|].
  apply (bind_nothing required no_registry children_values 8 3 plain
           (field_p VUndefined) eq_refl (or_introl eq_refl)).
Defined.

(** X16: hiding the leaf of the nested form. *)
Lemma setVisible_sticks_witness :
  run8 (CSetVisible 3 false) nested_state = Ok nested_hidden
  /\ visible_of 3 nested_hidden = Some false.
Proof.
  split; [vm_compute; reflexivity|].
  apply (setVisible_sticks required no_registry children_values 8 3 false
           nested_state).
  - vm_compute; reflexivity.
  - intros b Hb. cbn [subs nested_state] in Hb. by apply elem_of_nil in Hb.
Defined.

(** X17: the field p with the clause [{}]. *)
Lemma bind_empty_object_witness :
  bind8 3 (form (VFlat [])) = Ok bound_empty
  /\ visible_of 3 bound_empty = Some false
  /\ wiring <$> subs bound_empty = wiring <$> subs (form (VFlat [])).
Proof.
  split; [vm_compute; reflexivity|].
  apply (bind_empty_object required no_registry children_values 8 3
           (form (VFlat [])) bound_empty (field_p (VFlat [])) eq_refl eq_refl).
  - vm_compute; reflexivity.
  - intros b Hb. cbn [subs form] in Hb. by apply elem_of_nil in Hb.
Defined.


(** X19: validating the empty field a. *)
Lemma runValidation_normal_form_witness :
  _runValidation required no_registry 1 plain = Ok plain_validated
  /\ exists p p',
       heap plain !! 1 = Some p /\ heap plain_validated !! 1 = Some p'
       /\ normal_errors (_errors p')
       /\ _errorsChanges p' = _errors p'
       /\ _value p' = _value p /\ _visible p' = _visible p
       /\ (forall j, j <> 1 -> heap plain_validated !! j = heap plain !! j)
       /\ subs plain_validated = subs plain
       /\ since plain plain_validated
          = [(depth plain, ERunValidation 1);
             (depth plain, EErrorsNext 1 (_errors p'))].
Proof.
  split; [vm_compute; reflexivity|].
  apply (runValidation_normal_form required no_registry 1 plain plain_validated).
  vm_compute; reflexivity.
Defined.

(** X20: the same field; the registry is empty. *)
Lemma runValidation_schema_only_witness :
  heap plain !! 1 = Some field_a
  /\ exists s' p',
       _runValidation required no_registry 1 plain = Ok s'
       /\ heap s' !! 1 = Some p'
       /\ _errors p' = match required 1 (_value field_a) with
                       | Some (x :: l) => Some (x :: l)
                       | _ => None
                       end.
Proof.
  split; [reflexivity|].
  apply (runValidation_schema_only required no_registry 1 plain field_a
           eq_refl eq_refl).
Defined.





Lemma nested_unwatched : Forall (unwatched nested_state) [3; 2; 1; 0].
Proof. repeat (apply Forall_cons; split; [reflexivity|]). apply Forall_nil. exact I. Qed.

Lemma nested_chain : ancestors (parents (heap nested_state)) 3 [2; 1; 0].
Proof.
  apply ancestors_step; [reflexivity|]. apply ancestors_step; [reflexivity|].
  apply ancestors_step; [reflexivity|]. apply ancestors_root. reflexivity.
Qed.

(** X24: the leaf of the nested form, which has no subscription. *)
Lemma unwatched_update_returns_witness :
  ancestors (parents (heap nested_state)) 3 [2; 1; 0]
  /\ exists s',
       run8 (CUpdateValueAndValidity 3 false true) nested_state = Ok s'
       /\ subs s' = subs nested_state.
Proof.
  split; [exact nested_chain|].
  apply (unwatched_update_returns required no_registry children_values 8 3
           false true nested_state [2; 1; 0] nested_chain nested_unwatched).
  simpl. lia.
Defined.

(** X25: hiding that leaf. *)
Lemma unwatched_setVisible_returns_witness :
  ancestors (parents (heap nested_state)) 3 [2; 1; 0]
  /\ exists s',
       run8 (CSetVisible 3 false) nested_state = Ok s'
       /\ subs s' = subs nested_state
       /\ visible_of 3 s' = Some false.
Proof.
  split; [exact nested_chain|].
  apply (unwatched_setVisible_returns required no_registry children_values 8 3
           false nested_state [2; 1; 0] nested_chain nested_unwatched).
  simpl. lia.
Defined.

(** X26: the example form with the flat clause bound. *)
Lemma subscriptions_stay_synced_witness :
  all_synced bound_flat
  /\ (forall c s', run8 c bound_flat = Ok s' -> all_synced s')
  /\ (forall this s', bind8 this bound_flat = Ok s' -> all_synced s').
Proof.
  assert (H : all_synced bound_flat).
  { unfold all_synced. cbn [subs bound_flat]. apply Forall_singleton.
    reflexivity. }
  split; [exact H|].
  apply (subscriptions_stay_synced required no_registry children_values 8
           bound_flat H).
Defined.

(** X27: the field a has not sent a value yet. *)
Lemma bind_sentinel_on_null_witness :
  searchProperty (heap (form any_clause)) 3 "a" = Ok (RObj 1)
  /\ plain_paths [("a", [JStr "$ANY$"])]
  /\ _valueChanges field_a = JNull
  /\ bind8 3 (form any_clause) = Ok (form any_clause).
Proof.
  assert (P : plain_paths [("a", [JStr "$ANY$"])]) by (split; reflexivity).
  split; [vm_compute; reflexivity|]. split; [exact P|].
  split; [reflexivity|].
  apply (bind_sentinel_on_null required no_registry children_values 8 3
           (form any_clause) (field_p any_clause) "a" [JStr "$ANY$"] 1 field_a
           eq_refl eq_refl P).
  - vm_compute; reflexivity.
  - reflexivity.
  - apply list_elem_of_here.
  - left. reflexivity.
Defined.

Lemma form_chain clause : ancestors (parents (heap (form clause))) 3 [0].
Proof. apply ancestors_step; [reflexivity|]. apply ancestors_root. reflexivity. Qed.

Lemma form_unwatched clause : Forall (unwatched (form clause)) [3; 0].
Proof. repeat (apply Forall_cons; split; [reflexivity|]). apply Forall_nil. exact I. Qed.

(** X28: the flat clause on a, bound before a has a value. *)
Lemma bind_calls_setVisible_at_once_witness :
  plain_paths [("a", [JStr "x"])]
  /\ exists s',
       bind8 3 (form flat_clause) = Ok s'
       /\ (exists t,
             log s'
             = log (form flat_clause)
               ++ (S (depth (form flat_clause)),
                   ESetVisible 3
                     (existsb (fun x => strict_eq x (_valueChanges field_a))
                              [JStr "x"]
                      && _visibilityChanges field_a)) :: t)
       /\ wiring <$> subs s'
          = (wiring <$> subs (form flat_clause))
            ++ [(3, Membership, [(1, [JStr "x"])])]
       /\ visible_of 3 s'
          = Some (existsb (fun x => strict_eq x (_valueChanges field_a))
                          [JStr "x"]
                  && _visibilityChanges field_a).
Proof.
  assert (P : plain_paths [("a", [JStr "x"])]) by (split; reflexivity).
  split; [exact P|].
  apply (bind_calls_setVisible_at_once required no_registry children_values 8 3
           (form flat_clause) (field_p flat_clause) "a" [JStr "x"]
           1 field_a [0] eq_refl eq_refl P).
  - vm_compute; reflexivity.
  - reflexivity.
  - intros H. apply list_elem_of_singleton in H. discriminate H.
  - exact (form_chain flat_clause).
  - exact (form_unwatched flat_clause).
  - intros H. apply elem_of_cons in H as [H|H]; [discriminate H|].
    apply list_elem_of_singleton in H. discriminate H.
  - simpl. lia.
Defined.

(** X29: the field a of the form with the flat clause bound, which the
    subscription of p watches. *)
Lemma update_own_steps_witness :
  run8 (CUpdateValueAndValidity 1 false true) bound_flat = Ok flat_updated
  /\ (exists l,
        ancestors (parents (heap bound_flat)) 1 l
        /\ steps (depth bound_flat) (since bound_flat flat_updated)
           = flat_map (update_steps true) (1 :: l))
  /\ Forall (fun e => depth bound_flat <= fst e) (since bound_flat flat_updated)
  /\ depth flat_updated = depth bound_flat
  /\ parents (heap flat_updated) = parents (heap bound_flat).
Proof.
  split; [vm_compute; reflexivity|].
  apply (update_own_steps required no_registry children_values 8 1 false true).
  vm_compute; reflexivity.
Defined.

(** X30: hiding the field a, which the subscription of p watches. *)
Lemma setVisible_own_steps_witness :
  run8 (CSetVisible 1 false) flat_x = Ok flat_x_hidden
  /\ (exists l,
        ancestors (parents (heap flat_x)) 1 l
        /\ steps (depth flat_x) (since flat_x flat_x_hidden)
           = [SSetVisible 1; SVisibilityNext 1]
             ++ flat_map (update_steps true) (1 :: l)
             ++ flat_map (update_steps true) l)
  /\ Forall (fun e => depth flat_x <= fst e) (since flat_x flat_x_hidden)
  /\ depth flat_x_hidden = depth flat_x
  /\ parents (heap flat_x_hidden) = parents (heap flat_x).
Proof.
  split; [vm_compute; reflexivity|].
  apply (setVisible_own_steps required no_registry children_values 8 1 false).
  vm_compute; reflexivity.
Defined.

(** * The claims *)

(** C1 (the source departs from the claim).  From the leaf at
    group1/group2/leaf, [searchProperty("sibling")] asks group2, which has
    no such key; the lookup gives [undefined], the test [result === null] of
    the loop fails, and the search ends there: group1, which has the
    sibling, is never asked, and the result for a path that exists nowhere
    is [undefined], not null. *)
Theorem searchProperty_stops_at_nearest_group :
  getProperty nested 2 "sibling" = Ok RUndefined
  /\ getProperty nested 1 "sibling" = Ok (RObj 4)
  /\ searchProperty nested 3 "sibling" = Ok RUndefined
  /\ searchProperty nested 3 "group2/leaf" = Ok RUndefined
  /\ searchProperty nested 3 "missing" = Ok RUndefined.
Proof. repeat split; reflexivity. Qed.

(** C3 (the source departs from the claim).  On a property without errors,
    [extendErrors] with a falsy argument or an empty list leaves the empty
    array in [_errors]: neither null nor non-empty, and the property is no
    longer valid. *)
Theorem extendErrors_keeps_empty_array :
  let s := form VUndefined in
  _errors <$> heap s !! 1 = Some None
  /\ _errors <$> heap (the (extendErrors 1 CFalsy s) s) !! 1 = Some (Some [])
  /\ _errors <$> heap (the (extendErrors 1 (CArray []) s) s) !! 1 = Some (Some [])
  /\ valid <$> heap (the (extendErrors 1 CFalsy s) s) !! 1 = Some false.
Proof. repeat split; reflexivity. Qed.

Section Validation.
Variable schemaValidator : id -> JsValue -> Errors.
Variable validatorRegistry :
  string -> option (Heap -> JsValue -> id -> id -> CustomResult).

(** C5.  With a custom validator registered for the path of the
    property, [_runValidation] merges its result into the errors of the
    schema validator by concatenation, a single error object as one more
    element and a list element by element; an empty result becomes null;
    the result is stored and sent on the error stream whatever it is.
    With schema errors [required] and the custom error [custom] the
    errors are [required; custom]. *)
Theorem runValidation_merges_custom_errors i s p customValidator root :
  heap s !! i = Some p ->
  validatorRegistry (_path p) = Some customValidator ->
  findRoot (heap s) i = Ok root ->
  let schemaErrors := default [] (schemaValidator i (_value p)) in
  let customErrors := customValidator (heap s) (_value p) i root in
  let merged := mergeErrors schemaErrors customErrors in
  let errors := match merged with [] => None | _ => Some merged end in
  exists s' p',
    _runValidation schemaValidator validatorRegistry i s = Ok s'
    /\ heap s' !! i = Some p' /\ _errors p' = errors
    /\ since s s' = [(depth s, ERunValidation i); (depth s, EErrorsNext i errors)]
    /\ (forall e, customErrors = CSingle e -> merged = schemaErrors ++ [e])
    /\ (forall l, customErrors = CArray l -> merged = schemaErrors ++ l)
    /\ (schemaErrors = [{| code := "required" |}] ->
        customErrors = CSingle {| code := "custom" |} ->
        errors = Some [{| code := "required" |}; {| code := "custom" |}]).
Proof.
  intros Hi Hreg Hroot schemaErrors customErrors merged errors.
  unfold _runValidation. cbn [heap emit]. unfold get at 1. rewrite Hi.
  cbn [res_bind]. rewrite Hreg, Hroot. cbn [res_bind].
  change (mergeErrors _ _) with merged.
  assert (Hnorm : (if (Z.of_nat (length merged) =? 0)%Z then None else Some merged)
                  = errors).
  { unfold errors. by destruct merged. }
  rewrite Hnorm.
  assert (Hlt : i < length (heap s)) by (by eapply lookup_lt_Some).
  erewrite modify_Ok; [|exact Hi]. cbn [res_bind].
  edestruct (setErrors_Ok i errors) as (s' & Hs & Hh & Hlog);
    [|rewrite Hs].
  { simpl. by apply list_lookup_insert_eq. }
  eexists _, _. split; [done|]. split; [exact Hh|]. split; [done|].
  split.
  - unfold since. rewrite Hlog. cbn [log depth with_heap emit].
    rewrite <- app_assoc. by rewrite drop_app_length.
  - split; [|split].
    + intros e He. unfold merged. by rewrite He.
    + intros l He. unfold merged. by rewrite He.
    + intros Hs1 Hc. unfold errors, merged. by rewrite Hs1, Hc.
Qed.
End Validation.

(** Witness of C5 in the example form: the validator [required] on the
    empty field a, and the custom validator of the path /a. *)
Lemma runValidation_merges_custom_errors_witness :
  heap plain !! 1 = Some (new_property (Some 0) "/a" VUndefined None)
  /\ findRoot (heap plain) 1 = Ok 0
  /\ exists s' p',
       _runValidation required custom_registry 1 plain = Ok s'
       /\ heap s' !! 1 = Some p'
       /\ _errors p' = Some [{| code := "required" |}; {| code := "custom" |}].
Proof.
  split; [reflexivity|]. split; [reflexivity|].
  destruct (runValidation_merges_custom_errors required custom_registry 1 plain
              (new_property (Some 0) "/a" VUndefined None)
              (fun _ _ _ _ => CSingle {| code := "custom" |}) 0
              eq_refl eq_refl eq_refl)
    as (s' & p' & Hrun & Hp & He & _).
  exists s', p'. split; [exact Hrun|]. split; [exact Hp|]. exact He.
Defined.

(** C8.  With the allowed values ["$ANY$"], the membership predicate is
    true exactly for a value of non-zero length, false for the empty string
    and the empty array, and depends on nothing but the length. *)
Theorem any_sentinel_nonzero_length :
  (forall value,
     membership [JStr "$ANY$"] value = Ok true <-> has_nonzero_length value)
  /\ membership [JStr "$ANY$"] (JStr "") = Ok false
  /\ membership [JStr "$ANY$"] (JArr []) = Ok false
  /\ (forall s1 s2, String.length s1 = String.length s2 ->
        membership [JStr "$ANY$"] (JStr s1) = membership [JStr "$ANY$"] (JStr s2))
  /\ (forall l1 l2, length l1 = length l2 ->
        membership [JStr "$ANY$"] (JArr l1) = membership [JStr "$ANY$"] (JArr l2)).
Proof.
  assert (H : forall value, membership [JStr "$ANY$"] value = length_gt_0 value)
    by done.
  split; [|split; [done|split; [done|split]]].
  - intros value. rewrite H.
    destruct value as [| | |n|s|items]; simpl; split; try done.
    + intros [= Hs]. apply Z.ltb_lt in Hs. lia.
    + intros Hs. f_equal. apply Z.ltb_lt. lia.
    + intros [= Hs]. apply Z.ltb_lt in Hs. lia.
    + intros Hs. f_equal. apply Z.ltb_lt. lia.
  - intros s1 s2 Hlen. rewrite !H. simpl. by rewrite Hlen.
  - intros l1 l2 Hlen. rewrite !H. simpl. by rewrite Hlen.
Qed.





Section Unwatched.
Variable schemaValidator : id -> JsValue -> Errors.
Variable validatorRegistry :
  string -> option (Heap -> JsValue -> id -> id -> CustomResult).
Variable aggregate : Heap -> id -> JsValue.






End Unwatched.







(** C2 (the source departs from the claim).  Each branch of [oneOf] gets
    a subscription of its own, and each calls [setVisible] with the result
    of its branch alone.  After a = "x", b = "y", b = "z" the branch on b
    hides the property although a is visible and holds "x".  The same two
    dependencies written as a flat clause are combined by OR in one
    subscription, and there the property stays visible. *)
Theorem oneOf_hidden_while_branch_holds :
  bind8 3 (form oneOf_clause) = Ok bound_oneOf
  /\ setValue8 1 (JStr "x") false bound_oneOf = Ok oneOf_x
  /\ setValue8 2 (JStr "y") false oneOf_x = Ok oneOf_xy
  /\ setValue8 2 (JStr "z") false oneOf_xy = Ok oneOf_xz
  /\ value_of 1 oneOf_xz = Some (JStr "x")
  /\ visible_of 1 oneOf_xz = Some true
  /\ visible_of 3 oneOf_xz = Some false
  /\ length (subs oneOf_xz) = 2
  /\ bind8 3 (form both_clause) = Ok bound_both
  /\ setValue8 1 (JStr "x") false bound_both = Ok both_x
  /\ setValue8 2 (JStr "y") false both_x = Ok both_xy
  /\ setValue8 2 (JStr "z") false both_xy = Ok both_xz
  /\ length (subs both_xz) = 1
  /\ visible_of 3 both_xz = Some true.
Proof.
  split; [vm_compute; reflexivity|]. split; [vm_compute; reflexivity|].
  split; [vm_compute; reflexivity|]. split; [vm_compute; reflexivity|].
  split; [reflexivity|]. split; [reflexivity|]. split; [reflexivity|].
  split; [reflexivity|].
  split; [vm_compute; reflexivity|]. split; [vm_compute; reflexivity|].
  split; [vm_compute; reflexivity|]. split; [vm_compute; reflexivity|].
  split; reflexivity.
Qed.

(** C4 (the source departs from the claim).  Under [allOf] every
    dependency keeps the result of the last [_chk] that its own value
    stream set off, and the results are combined by OR.  After a = "x",
    b = "y", a = "w" the check made for a is false, the one made earlier
    for b is still true, and the property is visible although a does not
    hold "x"; [_chk] itself, asked in that state, answers false. *)
Theorem allOf_visible_with_stale_check :
  bind8 3 (form allOf_clause) = Ok bound_allOf
  /\ setValue8 1 (JStr "x") false bound_allOf = Ok allOf_x
  /\ setValue8 2 (JStr "y") false allOf_x = Ok allOf_xy
  /\ setValue8 1 (JStr "w") false allOf_xy = Ok allOf_wy
  /\ value_of 1 allOf_wy = Some (JStr "w")
  /\ value_of 2 allOf_wy = Some (JStr "y")
  /\ _chk (heap allOf_wy) 3 [[("a", [JStr "x"]); ("b", [JStr "y"])]] = Ok false
  /\ map (fun sl => (s_dep sl, s_check sl)) <$> (b_slots <$> subs allOf_wy)
     = [[(1, false); (2, true)]]
  /\ visible_of 3 allOf_wy = Some true.
Proof.
  split; [vm_compute; reflexivity|]. split; [vm_compute; reflexivity|].
  split; [vm_compute; reflexivity|]. split; [vm_compute; reflexivity|].
  split; [reflexivity|]. split; [reflexivity|]. split; [reflexivity|].
  split; reflexivity.
Qed.

(** C9 (the source departs from the claim).  [distinctUntilChanged] sits
    on each subscription.  The two branches of [oneOf] are two
    subscriptions of the same property: at binding both send false, and
    after a = "x" and b = "y" both have sent true, so the visibility
    stream of p carries false, false, true, true, and [setVisible] runs
    on an unchanged result.  The same two dependencies written as a flat
    clause are one subscription, and the stream carries false, true. *)
Theorem branches_notify_same_visibility_twice :
  bind8 3 (form oneOf_clause) = Ok bound_oneOf
  /\ setValue8 1 (JStr "x") false bound_oneOf = Ok oneOf_x
  /\ setValue8 2 (JStr "y") false oneOf_x = Ok oneOf_xy
  /\ visibility_sent 3 (log oneOf_xy) = [false; false; true; true]
  /\ no_repeat (visibility_sent 3 (log oneOf_xy)) = false
  /\ bind8 3 (form both_clause) = Ok bound_both
  /\ setValue8 1 (JStr "x") false bound_both = Ok both_x
  /\ setValue8 2 (JStr "y") false both_x = Ok both_xy
  /\ visibility_sent 3 (log both_xy) = [false; true]
  /\ no_repeat (visibility_sent 3 (log both_xy)) = true.
Proof.
  split; [vm_compute; reflexivity|]. split; [vm_compute; reflexivity|].
  split; [vm_compute; reflexivity|]. split; [reflexivity|].
  split; [reflexivity|].
  split; [vm_compute; reflexivity|]. split; [vm_compute; reflexivity|].
  split; [vm_compute; reflexivity|]. split; reflexivity.
Qed.
